(** * foonathan/storage: the [variant] class, embedded and verified

  The development follows [variant.hpp], [detail/variant_helper.hpp] and
  [raw_storage.hpp].  A [variant<Types...>] is a raw storage region plus
  the index [which_] of the alternative living in it; every generic
  operation goes through [visit], which picks the entry of a function
  table by [which_].  Exceptions are the results [Throws]; assertion
  failures, rejected instantiations and undefined behaviour are [Fault].

  Conventions of the embedding:
  - a member function takes the objects it works on and gives back their
    states; the two operands of a binary operation are distinct objects;
  - an object moved from stays alive, in the state its move constructor
    or move assignment left it in;
  - a constructor of [variant] starts from members nobody has written:
    the tag such an object reads as is a parameter of the model. *)

From stdpp Require Import base decidable option list numbers.
From Stdlib Require Import ZArith Lia.

(** ** Results of running a member function *)

(** A call either returns, or leaves through an exception; in both cases the
  objects it worked on are left in some state.  [Fault] stands for
  everything with no defined result: a failed [assert], a [static_assert]
  that rejects the instantiation, a read of an uninitialised member, a
  call through a table entry that does not exist. *)
Inductive outcome (S : Type) : Type :=
| Returns (s : S)
| Throws (s : S)
| Fault.
Arguments Returns {S} s.
Arguments Throws {S} s.
Arguments Fault {S}.

(** Sequencing: an exception of the first call propagates, and the state it
  left is seen through [wrap]. *)
Definition and_then {S S' : Type} (wrap : S -> S') (o : outcome S)
  (k : S -> outcome S') : outcome S' :=
match o with
| Returns s => k s
| Throws s => Throws (wrap s)
| Fault => Fault
end.

(** What holds of the state a call leaves, whichever way it leaves. *)
Definition leaves {S : Type} (P : S -> Prop) (o : outcome S) : Prop :=
match o with
| Returns s | Throws s => P s
| Fault => False
end.

(** The same with one condition for a return and one for an exception. *)
Definition ends_in {S : Type} (P Q : S -> Prop) (o : outcome S) : Prop :=
  match o with
  | Returns s => P s
  | Throws s => Q s
  | Fault => False
  end.

(** ** detail::get_index_t *)

Section GetIndex.
Context {ty : Type} `{EqDecision ty}.

(** The three specialisations of [get_index_t]: the primary one adds one
    to the index in the tail, the one for [<T, T, Tail...>] is 0, and the
    one for the empty list is 0 too. *)
Fixpoint get_index_t (T : ty) (Types : list ty) : nat :=
  match Types with
  | [] => 0
  | Head :: Tail => if decide (T = Head) then 0 else S (get_index_t T Tail)
  end.

Definition get_index (T : ty) (Types : list ty) : nat := get_index_t T Types.

Lemma get_index_le T Types : get_index T Types <= length Types.
Proof.
  unfold get_index. induction Types as [|H0 Tl IH]; simpl; [lia|].
  destruct (decide (T = H0)); lia.
Qed.

Lemma get_index_lookup T Types :
  T ∈ Types -> Types !! get_index T Types = Some T.
Proof.
  unfold get_index. induction Types as [|H0 Tl IH]; simpl; intros Hin.
  - inversion Hin.
  - destruct (decide (T = H0)) as [->|Hne]; [reflexivity|].
    apply IH. apply elem_of_cons in Hin as [?|?]; [contradiction|assumption].
Qed.

Lemma get_index_first T Types j :
  j < get_index T Types -> Types !! j <> Some T.
Proof.
  unfold get_index. revert j.
  induction Types as [|H0 Tl IH]; simpl; intros j Hj; [lia|].
  destruct (decide (T = H0)) as [->|Hne]; [lia|].
  destruct j as [|j]; simpl; [congruence|]. apply IH. lia.
Qed.

Lemma get_index_absent T Types :
  T ∉ Types -> get_index T Types = length Types.
Proof.
  unfold get_index. induction Types as [|H0 Tl IH]; simpl; intros Hn; [reflexivity|].
  apply not_elem_of_cons in Hn as [Hne Hn].
  destruct (decide (T = H0)); [contradiction|]. rewrite IH; auto.
Qed.

Lemma get_index_present T Types :
  get_index T Types < length Types -> T ∈ Types.
Proof.
  intros Hlt. destruct (decide (T ∈ Types)) as [?|Hn]; [assumption|].
  apply get_index_absent in Hn. lia.
Qed.

(** In a list without repetitions the index of the type at position [i]
    is [i]: the assertion of [get] inside [call_visitor] holds. *)
Lemma get_index_nth T Types i :
  NoDup Types -> Types !! i = Some T -> get_index T Types = i.
Proof.
  unfold get_index. intros Hnd. revert i.
  induction Hnd as [|H0 Tl Hnotin Hnd IH]; intros i Hi; [inversion Hi|].
  simpl. destruct (decide (T = H0)) as [->|Hne].
  - destruct i as [|i]; [reflexivity|]. simpl in Hi.
    exfalso. apply Hnotin. eapply list_elem_of_lookup_2; eassumption.
  - destruct i as [|i]; simpl in Hi; [congruence|]. f_equal. auto.
Qed.
End GetIndex.

(** ** The alternative types

  [variant] is a template: everything it does to a held object it does by
  calling that object's own special member functions.  An alternative
  type is therefore given by the traits the code asks for and by what its
  members do to object states of type [V]; [A] stands for the argument
  lists a constructor can be called with. *)

Section Alternatives.
Context {ty : Type} `{EqDecision ty}.
Context {V A : Type}.

Record type_ops : Type := {
  (** [std::is_trivial<T>] *)
  is_trivial : bool;
  (** [std::is_nothrow_move_constructible<T>], also [noexcept(T(T&&))] *)
  is_nothrow_move_constructible : bool;
  (** [noexcept(T(const T&))] *)
  is_nothrow_copy_constructible : bool;
  (** [T& = const T&] is well-formed *)
  is_copy_assignable : bool;
  (** [T(const T&)]: the new object, [None] when it throws *)
  copy_ctor : V -> option V;
  (** [T(T&&)]: the new object, and the state the source is left in *)
  move_ctor : V -> option V * V;
  (** [T(args...)] for any other argument list *)
  ctor : A -> option V;
  (** [noexcept(T(args...))] *)
  ctor_noexcept : A -> bool;
  (** [lhs = rhs]: the state of [lhs] afterwards, and whether the
      assignment completed ([false]: it threw) *)
  copy_assign : V -> V -> V * bool;
  (** [lhs = std::move(rhs)]: both states afterwards *)
  move_assign : V -> V -> V * V * bool;
  (** a single argument [u] for which [T& = u] is well-formed *)
  assignable_from : A -> bool;
  (** [lhs = u] for such an argument *)
  assign_from : V -> A -> V * bool;
  (** [swap(x, y)] found by [using std::swap] *)
  swap_values : V -> V -> V * V * bool;
  (** [x == y] *)
  equal : V -> V -> bool;
  (** [std::hash<T>()(x)] *)
  std_hash : V -> N;
  (** [foonathan::storage] is an associated namespace of [T]: an
      unqualified call with an argument of type [T] finds the functions of
      raw_storage.hpp by argument-dependent lookup *)
  storage_associated : bool
}.

(** The arguments [emplace] forwards to the constructor: an object of the
    alternative's own type by const reference or by rvalue reference (what
    the visitors and the converting constructor pass), or anything else. *)
Inductive args : Type :=
| by_copy (x : V)
| by_move (x : V)
| pack (a : A).

(** The referenced object as it is after the call. *)
Definition referenced (x : V) (a : args) : V :=
  match a with
  | by_copy y | by_move y => y
  | pack _ => x
  end.

(** The template parameter pack: the list of alternative types, and what
    each of them is. *)
Class alternative_set : Type := {
  ops : ty -> type_ops;
  Types : list ty
}.

Context `{alts : alternative_set}.

(** [T(std::forward<Args>(args)...)] *)
Definition construct_from (T : ty) (a : args) : option V * args :=
  match a with
  | by_copy x => (copy_ctor (ops T) x, by_copy x)
  | by_move x => let '(r, x') := move_ctor (ops T) x in (r, by_move x')
  | pack p => (ctor (ops T) p, pack p)
  end.

(** [noexcept(T(std::forward<Args>(args)...))] *)
Definition noexcept_construct (T : ty) (a : args) : bool :=
  match a with
  | by_copy _ => is_nothrow_copy_constructible (ops T)
  | by_move _ => is_nothrow_move_constructible (ops T)
  | pack p => ctor_noexcept (ops T) p
  end.

(** Whether the first overload of [variant::assign] takes part: one
    argument [u] with [std::declval<T&>() = std::forward<U>(u)] valid. *)
Definition assignable (T : ty) (a : args) : bool :=
  match a with
  | by_copy _ => is_copy_assignable (ops T)
  | by_move _ => true
  | pack p => assignable_from (ops T) p
  end.

(** [held = std::forward<U>(u)] *)
Definition assign_arg (T : ty) (held : V) (a : args) : V * args * bool :=
  match a with
  | by_copy y => let '(h, ok) := copy_assign (ops T) held y in (h, by_copy y, ok)
  | by_move y => let '(h, y', ok) := move_assign (ops T) held y in (h, by_move y', ok)
  | pack p => let '(h, ok) := assign_from (ops T) held p in (h, pack p, ok)
  end.

(** ** raw_storage.hpp *)

(** The aligned region: which object lives in it, if any.  [None] is a
    region that holds no object (never constructed in, or destroyed). *)
Definition storage : Type := option (ty * V).

(** [emplace<T>(Storage &s, args...)]: placement new.  A constructor that
    throws leaves no object in the region. *)
Definition emplace_storage (T : ty) (a : args) (s : storage)
    : outcome (storage * args) :=
  match construct_from T a with
  | (Some x, a') => Returns (Some (T, x), a')
  | (None, a') => Throws (None, a')
  end.

(** [get<T>(Storage &s)]: the region read as a [T].  There is a result
    only when a [T] lives there. *)
Definition get_storage (T : ty) (s : storage) : option V :=
  match s with
  | Some (U, x) => if decide (T = U) then Some x else None
  | None => None
  end.

(** ** The class *)

(** [storage_] and [which_] are the two members.  [destroyed_] is ghost
    state: the objects whose destructor [variant_destroy_visitor] has run
    on this variant, latest first. *)
Record variant : Type := {
  storage_ : storage;
  which_ : nat;
  destroyed_ : list (ty * V)
}.

Definition with_storage (s : storage) (var : variant) : variant :=
  {| storage_ := s; which_ := which_ var; destroyed_ := destroyed_ var |}.

Definition with_which (i : nat) (var : variant) : variant :=
  {| storage_ := storage_ var; which_ := i; destroyed_ := destroyed_ var |}.

(** [static constexpr auto invalid_index = sizeof...(Types)] *)
Definition invalid_index : nat := length Types.

(** [detail::trivial_types<Types...>()] *)
Definition trivial : bool := forallb (fun T => is_trivial (ops T)) Types.

(** [detail::nothrow_move_types<Types...>()] *)
Definition nothrow_move : bool :=
  forallb (fun T => is_nothrow_move_constructible (ops T)) Types.

(** [variant()] and [variant(nullvar_t)] *)
Definition null_variant : variant :=
  {| storage_ := None; which_ := invalid_index; destroyed_ := [] |}.

(** The object a constructor without member initialisers starts from:
    nothing has set [which_], it reads as some indeterminate [w]. *)
Definition uninitialized (w : nat) : variant :=
  {| storage_ := None; which_ := w; destroyed_ := [] |}.

(** [explicit operator bool()] *)
Definition has_value (var : variant) : bool :=
  negb (which_ var =? invalid_index).

(** [which()] *)
Definition which (var : variant) : nat := which_ var.

(** [get<T>(variant&)]: the assertion, then the storage read as [T]. *)
Definition get (T : ty) (var : variant) : option V :=
  if has_value var && (which var =? get_index T Types)
  then get_storage T (storage_ var)
  else None.

(** [contains<T>(var)] *)
Definition contains (T : ty) (var : variant) : bool :=
  has_value var && (which var =? get_index T Types).

(** ** detail::variant_visit *)

(** [call_visitor<T>]: the visitor gets the object [get<T>] returns. *)
Definition call_visitor {R : Type} (T : ty) (visitor : ty -> V -> outcome R)
    (var : variant) : outcome R :=
  match get T var with
  | Some x => visitor T x
  | None => Fault
  end.

(** [variant_visit]: nothing happens for an empty variant ([skip] is what
    the caller is left with); otherwise entry [which()] of the table
    [{&call_visitor<Types, ...>...}] is called. *)
Definition variant_visit {R : Type} (visitor : ty -> V -> outcome R)
    (skip : outcome R) (var : variant) : outcome R :=
  if negb (has_value var) then skip
  else match Types !! which var with
       | Some T => call_visitor T visitor var
       | None => Fault
       end.

(** ** operator=(nullvar_t) and the destructor *)

(** [variant_destroy_visitor]: [obj.~T()]. *)
Definition variant_destroy_visitor (var : variant) (T : ty) (obj : V)
    : outcome variant :=
  Returns {| storage_ := None; which_ := which_ var;
             destroyed_ := (T, obj) :: destroyed_ var |}.

Definition assign_nullvar (var : variant) : outcome variant :=
  and_then id
    (if negb trivial && has_value var
     then variant_visit (variant_destroy_visitor var) (Returns var) var
     else Returns var)
    (fun var' => Returns (with_which invalid_index var')).

(** [~variant()] is [*this = nullvar]. *)
Definition destroy (var : variant) : outcome variant := assign_nullvar var.

(** ** emplace *)

(** Placement construction into the member [storage_]. *)
Definition emplace_member (T : ty) (a : args) (var : variant)
    : outcome (variant * args) :=
  match emplace_storage T a (storage_ var) with
  | Returns (s, a') => Returns (with_storage s var, a')
  | Throws (s, a') => Throws (with_storage s var, a')
  | Fault => Fault
  end.

(** The two overloads of [variant::assign<T>]: direct assignment of the
    single argument when that is well-formed, else move-assignment of a
    temporary [T(args...)]. *)
Definition assign (T : ty) (a : args) (var : variant)
    : outcome (variant * args) :=
  match get T var with
  | None => Fault
  | Some held =>
      if assignable T a then
        let '(h, a', ok) := assign_arg T held a in
        let var' := with_storage (Some (T, h)) var in
        if ok then Returns (var', a') else Throws (var', a')
      else
        match construct_from T a with
        | (None, a') => Throws (var, a')
        | (Some tmp, a') =>
            let '(h, _, ok) := move_assign (ops T) held tmp in
            let var' := with_storage (Some (T, h)) var in
            if ok then Returns (var', a') else Throws (var', a')
        end
  end.

(** [emplace_impl(std::true_type, ...)] builds a temporary first;
    [emplace_impl(std::false_type, ...)] resets and constructs in place. *)
Definition emplace_impl (tmp_first : bool) (T : ty) (a : args) (var : variant)
    : outcome (variant * args) :=
  if tmp_first then
    match construct_from T a with
    | (None, a') => Throws (var, a')
    | (Some tmp, a') =>
        and_then (fun var' => (var', a')) (assign_nullvar var)
          (fun var' =>
             match emplace_member T (by_move tmp) var' with
             | Returns (v, _) => Returns (v, a')
             | Throws (v, _) => Throws (v, a')
             | Fault => Fault
             end)
    end
  else
    and_then (fun var' => (var', a)) (assign_nullvar var)
      (fun var' => emplace_member T a var').

(** [emplace<T>(variant &var, args...)] *)
Definition emplace (T : ty) (a : args) (var : variant)
    : outcome (variant * args) :=
  let index := get_index T Types in
  if index =? invalid_index then Fault
  else
    and_then id
      (if trivial || negb (has_value var) then emplace_member T a var
       else if index =? which_ var then assign T a var
       else emplace_impl (negb (noexcept_construct T a)
                          && is_nothrow_move_constructible (ops T)) T a var)
      (fun '(var', a') => Returns (with_which index var', a')).

(** ** construct, the constructors and the assignment operators *)

(** [construct(std::true_type, other)]: the trivial alternatives are
    copied as bytes, tag and all. *)
Definition construct_trivial (other this : variant) : variant :=
  {| storage_ := storage_ other; which_ := which_ other;
     destroyed_ := destroyed_ this |}.

(** The argument a visitor of [other] forwards: [const T&] when [other] is
    visited as a const lvalue, [T&&] when it is visited as an rvalue. *)
Definition forwarded (moved : bool) (x : V) : args :=
  if moved then by_move x else by_copy x.

(** [variant_emplace_visitor(storage_)] applied to the object of [other]:
    [emplace<t>( *storage_, std::forward<T>(other))] on the raw storage.
    The result is the pair of [other] and [this]. *)
Definition variant_emplace_visitor_storage (moved : bool)
    (other this : variant) (T : ty) (x : V) : outcome (variant * variant) :=
  match emplace_member T (forwarded moved x) this with
  | Returns (this', a') =>
      Returns (with_storage (Some (T, referenced x a')) other, this')
  | Throws (this', a') =>
      Throws (with_storage (Some (T, referenced x a')) other, this')
  | Fault => Fault
  end.

(** [construct(std::false_type, other)] *)
Definition construct_visit (moved : bool) (other this : variant)
    : outcome (variant * variant) :=
  if negb (has_value other) then
    and_then (fun this' => (other, this')) (assign_nullvar this)
      (fun this' => Returns (other, this'))
  else
    and_then id
      (variant_visit (variant_emplace_visitor_storage moved other this)
         (Returns (other, this)) other)
      (fun '(other', this') =>
         Returns (other', with_which (which_ other') this')).

(** [construct(trivial(), other)] *)
Definition construct (moved : bool) (other this : variant)
    : outcome (variant * variant) :=
  if trivial then Returns (other, construct_trivial other this)
  else construct_visit moved other this.

(** Whether [construct(std::false_type, other)] can be instantiated.  Its
    visitor, [variant_emplace_visitor_t], is a class of namespace [detail]
    and calls [emplace<t>( *storage_, std::forward<T>(other))] unqualified,
    on the raw storage.  Ordinary lookup stops at the declaration of
    [detail::emplace], which takes a [detail::variant]; the [emplace] of
    raw_storage.hpp is a candidate only by argument-dependent lookup.  The
    storage is a [std::aligned_storage], so the lookup reaches
    [foonathan::storage] through the alternative or not at all.  The table
    of [variant_visit] instantiates the call for every alternative. *)
Definition construct_instantiates : bool :=
  forallb (fun T => storage_associated (ops T)) Types.

(** [variant(const variant &other)]: no member is initialised before the
    body runs, [w] is what [which_] reads as then.  The constructor passes
    the tag [trivial()], so over an all-trivial set the generic overload of
    [construct] is never instantiated; over any other set the constructor
    exists only if that overload can be instantiated. *)
Definition copy_construct (w : nat) (other : variant)
    : outcome (variant * variant) :=
  if trivial || construct_instantiates
  then construct false other (uninitialized w)
  else Fault.

(** [variant(variant &&other)] *)
Definition move_construct (w : nat) (other : variant)
    : outcome (variant * variant) :=
  if trivial || construct_instantiates
  then construct true other (uninitialized w)
  else Fault.

(** [variant(T &&val)]: the storage is filled first, then the tag. *)
Definition value_construct (w : nat) (T : ty) (a : args)
    : outcome (variant * args) :=
  let index := get_index T Types in
  if index =? invalid_index then Fault
  else
    and_then id (emplace_member T a (uninitialized w))
      (fun '(var, a') => Returns (with_which index var, a')).

(** [variant_emplace_visitor( *this)] applied to the object of [other]:
    [emplace<t>] on the variant [this]. *)
Definition variant_emplace_visitor (moved : bool) (other this : variant)
    (T : ty) (x : V) : outcome (variant * variant) :=
  match emplace T (forwarded moved x) this with
  | Returns (this', a') =>
      Returns (with_storage (Some (T, referenced x a')) other, this')
  | Throws (this', a') =>
      Throws (with_storage (Some (T, referenced x a')) other, this')
  | Fault => Fault
  end.

(** The [else] branch of both [operator=(const variant&)] and
    [operator=(variant&&)]:
    [visit(std::move(other), detail::variant_emplace_visitor( *this))].
    [std::move] of a const lvalue is still const, so the copy assignment
    visits with [const T&]. *)
Definition assign_visit (moved : bool) (other this : variant)
    : outcome (variant * variant) :=
  variant_visit (variant_emplace_visitor moved other this)
    (Returns (other, this)) other.

Definition assign_variant (moved : bool) (other this : variant)
    : outcome (variant * variant) :=
  if trivial then Returns (other, construct_trivial other this)
  else assign_visit moved other this.

(** [operator=(const variant &other)] *)
Definition copy_assign_variant (other this : variant)
    : outcome (variant * variant) := assign_variant false other this.

(** [operator=(variant &&other)] *)
Definition move_assign_variant (other this : variant)
    : outcome (variant * variant) := assign_variant true other this.

(** [operator=(T &&val)] *)
Definition assign_value (T : ty) (a : args) (this : variant)
    : outcome (variant * args) := emplace T a this.

(** ** swap *)

(** [swap(variant &a, variant &b)].  Its two branches for exactly one
    operand with a value are written [b.construct(std::move(a))] and
    [a.construct(std::move(b))]: one argument, where both overloads of
    [construct] take a tag and the variant, so no overload matches.  The
    test of [trivial::value] around them is an ordinary [if]: the calls are
    instantiated with the function, for every set of alternatives and
    whatever the operands hold.  The function has no instance. *)
Definition swap (a b : variant) : outcome (variant * variant) := Fault.

(** ** Comparison and hash *)

(** [variant_compare_visitor(a)] applied to the object of [b]:
    [equal = get<T>( *var) == a]. *)
Definition variant_compare_visitor (a : variant) (T : ty) (x : V)
    : outcome bool :=
  match get T a with
  | Some y => Returns (equal (ops T) y x)
  | None => Fault
  end.

(** [operator==(const variant&, const variant&)].  The member [equal] of
    the visitor has no initialiser: would [visit] skip, the result read
    would be indeterminate. *)
Definition variant_eq (a b : variant) : outcome bool :=
  if negb (has_value a) && negb (has_value b) then Returns true
  else if which a =? which b
  then variant_visit (variant_compare_visitor a) Fault b
  else Returns false.

(** [operator==(const variant&, const T&)] *)
Definition variant_eq_value (T : ty) (a : variant) (b : V) : outcome bool :=
  let index := get_index T Types in
  if index =? invalid_index then Fault
  else if which a =? index then
    match get T a with
    | Some x => Returns (equal (ops T) x b)
    | None => Fault
    end
  else Returns false.

(** [variant_hash_visitor] *)
Definition variant_hash_visitor (T : ty) (arg : V) : outcome N :=
  Returns (std_hash (ops T) arg).

(** [std::hash<variant<Types...>>::operator()] *)
Definition variant_hash (arg : variant) : outcome N :=
  if negb (has_value arg) then Returns 19937%N
  else variant_visit variant_hash_visitor Fault arg.

(** ** What a client can see of a variant *)

(** No alternative is held. *)
Definition is_empty (var : variant) : Prop := which_ var = invalid_index.

(** Alternative [T] is held, with object state [x]: the tag is the index of
    [T] and an object of type [T] lives in the storage. *)
Definition holds (var : variant) (T : ty) (x : V) : Prop :=
  T ∈ Types /\ which_ var = get_index T Types /\ storage_ var = Some (T, x).

(** The states the public interface produces. *)
Definition well_formed (var : variant) : Prop :=
  is_empty var \/ exists T x, holds var T x.

(** The states of the invariant, with the tag tied to the first occurrence
    of the held type (what the assertion of [get] asks for) and nothing
    left in the storage of an empty variant. *)
Definition settled (var : variant) : Prop :=
  (is_empty var /\ storage_ var = None) \/ exists T x, holds var T x.

(** The held object, as [which()] and [get] show it; the bytes left in the
    storage of an empty variant are not observable. *)
Definition held_value (var : variant) : option (ty * V) :=
  if has_value var then storage_ var else None.

(** Two variants a client cannot tell apart. *)
Definition same_value (var var' : variant) : Prop :=
  which var = which var' /\ held_value var = held_value var'.

(** The invariant of the data model: the tag is in [[0, N]], it is [N]
    exactly when the storage holds no live object, and a tag [i < N] means
    that one object of the [i]-th alternative lives in the storage. *)
Definition invariant (var : variant) : Prop :=
  which var <= invalid_index
  /\ (which var = invalid_index <-> storage_ var = None)
  /\ (forall i, which var = i -> i < invalid_index ->
        exists T x, Types !! i = Some T /\ storage_ var = Some (T, x)).

(** A condition on both variants of a binary operation, and on the
    variant of an operation that also hands back its arguments. *)
Definition both (P : variant -> Prop) (s : variant * variant) : Prop :=
  P s.1 /\ P s.2.

Definition of_variant {X : Type} (P : variant -> Prop) (s : variant * X) : Prop :=
  P s.1.

(** The operations of the class that have an instance keep [I]: from
    operands that satisfy [I] they do not fault, the variants they return
    with satisfy [I], and the variants an exception leaves behind satisfy
    [J].  A constructor that throws leaves no object, only its source;
    [source] restricts the sources of copy and move construction. *)
Definition operations_preserve (I J source : variant -> Prop) : Prop :=
  I null_variant
  /\ (forall w T arg, T ∈ Types ->
        ends_in (of_variant I) (fun _ => True) (value_construct w T arg))
  /\ (forall w other, I other -> source other ->
        ends_in (both I) (of_variant J) (copy_construct w other))
  /\ (forall w other, I other -> source other ->
        ends_in (both I) (of_variant J) (move_construct w other))
  /\ (forall other this, I other -> I this ->
        ends_in (both I) (both J) (copy_assign_variant other this))
  /\ (forall other this, I other -> I this ->
        ends_in (both I) (both J) (move_assign_variant other this))
  /\ (forall T arg this, T ∈ Types -> I this ->
        ends_in (of_variant I) (of_variant J) (assign_value T arg this))
  /\ (forall T arg var, T ∈ Types -> I var ->
        ends_in (of_variant I) (of_variant J) (emplace T arg var))
  /\ (forall var, I var -> ends_in I J (assign_nullvar var))
  /\ (forall var, I var -> ends_in I J (destroy var)).

(** ** Well-behaved alternatives *)

(** What [std::is_trivial] promises of a type: copies and moves are copies
    of the bytes, they cannot throw, and [std::swap] exchanges. *)
Definition bytewise (T : ty) : Prop :=
  (forall x, copy_ctor (ops T) x = Some x)
  /\ (forall x, move_ctor (ops T) x = (Some x, x))
  /\ (forall x y, copy_assign (ops T) x y = (y, true))
  /\ (forall x y, move_assign (ops T) x y = (y, y, true))
  /\ (forall x y, swap_values (ops T) x y = (y, x, true)).

(** A move constructor that completes builds the state it was given. *)
Definition move_preserves (T : ty) : Prop :=
  forall x x' s, move_ctor (ops T) x = (Some x', s) -> x' = x.

(** A [swap] that completes has exchanged the two states. *)
Definition swap_exchanges (T : ty) : Prop :=
  forall x y x' y', swap_values (ops T) x y = (x', y', true) -> x' = y /\ y' = x.

(** A copy constructor that completes builds an equal state. *)
Definition copy_preserves (T : ty) : Prop :=
  forall x x', copy_ctor (ops T) x = Some x' -> x' = x.

End Alternatives.

(** ** The alternatives of the example: [variant<int, float, std::string>]

    Object states and constructor arguments are encoded as integers.  The
    scalar types are trivial.  The string type is not: its constructors may
    throw (here: from a negative argument), its move constructor is
    [noexcept] and leaves the source empty (0). *)

Inductive cpp_type : Type := t_int | t_float | t_string.

#[global] Instance cpp_type_eq_dec : EqDecision cpp_type.
Proof. solve_decision. Defined.

Definition scalar_ops : @type_ops Z Z := {|
  is_trivial := true;
  is_nothrow_move_constructible := true;
  is_nothrow_copy_constructible := true;
  is_copy_assignable := true;
  copy_ctor := fun x => Some x;
  move_ctor := fun x => (Some x, x);
  ctor := fun a => Some a;
  ctor_noexcept := fun _ => true;
  copy_assign := fun _ y => (y, true);
  move_assign := fun _ y => (y, y, true);
  assignable_from := fun _ => true;
  assign_from := fun _ a => (a, true);
  swap_values := fun x y => (y, x, true);
  equal := Z.eqb;
  std_hash := Z.to_N;
  storage_associated := false
|}.

Definition string_ops : @type_ops Z Z := {|
  is_trivial := false;
  is_nothrow_move_constructible := true;
  is_nothrow_copy_constructible := false;
  is_copy_assignable := true;
  copy_ctor := fun x => Some x;
  move_ctor := fun x => (Some x, 0%Z);
  ctor := fun a => if (a <? 0)%Z then None else Some a;
  ctor_noexcept := fun _ => false;
  copy_assign := fun _ y => (y, true);
  move_assign := fun _ y => (y, 0%Z, true);
  assignable_from := fun _ => false;
  assign_from := fun x _ => (x, true);
  swap_values := fun x y => (y, x, true);
  equal := Z.eqb;
  std_hash := fun x => Z.to_N (x + 1);
  storage_associated := false
|}.

Definition cpp_ops (T : cpp_type) : @type_ops Z Z :=
  match T with
  | t_int | t_float => scalar_ops
  | t_string => string_ops
  end.

(** [variant<int, float, std::string>], the variant of the example. *)
Definition example_set : @alternative_set cpp_type Z Z :=
  {| ops := cpp_ops; Types := [t_int; t_float; t_string] |}.

(** [variant<int, float>], an all-trivial set. *)
Definition scalar_set : @alternative_set cpp_type Z Z :=
  {| ops := cpp_ops; Types := [t_int; t_float] |}.

(** ** Alternatives of the library's own namespace:
    [variant<optional<int>, optional<float>>]

    [optional] is a class template of [foonathan::storage], so
    argument-dependent lookup on an [optional] reaches raw_storage.hpp.  It
    has a destructor and constructors of its own and is not trivial.  The
    state of an optional is encoded as an integer; constructing or assigning
    one from a value of its [value_type] engages it with that value, and a
    move leaves the source engaged with the same scalar. *)

Inductive lib_type : Type := t_optional_int | t_optional_float.

#[global] Instance lib_type_eq_dec : EqDecision lib_type.
Proof. solve_decision. Defined.

Definition optional_ops : @type_ops Z Z := {|
  is_trivial := false;
  is_nothrow_move_constructible := true;
  is_nothrow_copy_constructible := false;
  is_copy_assignable := true;
  copy_ctor := fun x => Some x;
  move_ctor := fun x => (Some x, x);
  ctor := fun a => Some a;
  ctor_noexcept := fun _ => true;
  copy_assign := fun _ y => (y, true);
  move_assign := fun _ y => (y, y, true);
  assignable_from := fun _ => true;
  assign_from := fun _ a => (a, true);
  swap_values := fun x y => (y, x, true);
  equal := Z.eqb;
  std_hash := Z.to_N;
  storage_associated := true
|}.

Definition lib_set : @alternative_set lib_type Z Z :=
  {| ops := fun _ => optional_ops; Types := [t_optional_int; t_optional_float] |}.

(** A variant holding the alternative [T] with state [x]. *)
Definition holding `{EqDecision ty} {V A : Type} (alts : @alternative_set ty V A)
    (T : ty) (x : V) : @variant ty V :=
  {| storage_ := Some (T, x); which_ := get_index T Types; destroyed_ := [] |}.

(** The empty variant over the set [alts]. *)
Definition nothing `{EqDecision ty} {V A : Type} (alts : @alternative_set ty V A)
    : @variant ty V := null_variant (alts := alts).

(** ** More of variant.hpp and its helpers *)

Section Further.
Context {ty : Type} `{EqDecision ty} {V A : Type}.
Context {alts : @alternative_set ty V A}.

(** [try_get<T>(var, val)]: a copy of the held [T] when [contains<T>],
    else [T] built from [val].  The result is the value returned, if the
    copy or the conversion did not throw, and the argument afterwards. *)
Definition try_get (T : ty) (var : @variant ty V) (val : @args V A)
    : outcome (option V * @args V A) :=
  if contains T var then
    match get T var with
    | Some x =>
        match copy_ctor (ops T) x with
        | Some r => Returns (Some r, val)
        | None => Throws (None, val)
        end
    | None => Fault
    end
  else
    match construct_from T val with
    | (Some r, val') => Returns (Some r, val')
    | (None, val') => Throws (None, val')
    end.

(** [operator==(const variant&, nullvar_t)] *)
Definition variant_eq_nullvar (a : @variant ty V) : bool := negb (has_value a).

(** The type lists [trivial_types] compares: [select_type<...>] of every
    alternative against [all_true_types<Types...>], with [std::is_same]. *)
Definition all_true_types : list bool := map (fun _ => true) Types.

Definition select_types (trait : @type_ops V A -> bool) : list bool :=
  map (fun T => trait (ops T)) Types.

Definition trivial_types : bool :=
  bool_decide (select_types is_trivial = all_true_types).

Definition nothrow_move_types : bool :=
  bool_decide (select_types is_nothrow_move_constructible = all_true_types).

End Further.

(** ** detail/aligned_union.hpp *)

(** The three overloads of [detail::max]: one argument, two arguments
    ([a < b ? b : a]) and the variadic one, [max(t, max(ts...))]. *)
Fixpoint max_of (t : nat) (ts : list nat) : nat :=
  match ts with
  | [] => t
  | [b] => if t <? b then b else t
  | u :: us => let m := max_of u us in if t <? m then m else t
  end.

Section AlignedUnion.
Context {ty : Type}.
Context (sizeof alignof : ty -> nat).

(** [aligned_union<Types...>::size_value] and [alignment_value]; there is
    no [max] of no arguments, an empty pack is rejected. *)
Definition size_value (Types : list ty) : option nat :=
  match Types with
  | [] => None
  | T :: Ts => Some (max_of (sizeof T) (map sizeof Ts))
  end.

Definition alignment_value (Types : list ty) : option nat :=
  match Types with
  | [] => None
  | T :: Ts => Some (max_of (alignof T) (map alignof Ts))
  end.

(** The condition under which the raw [emplace<T>(Storage&, ...)] takes
    part in overload resolution, for a storage of the given size and
    alignment (an [std::aligned_storage] is a POD). *)
Definition emplace_enabled (T : ty) (size alignment : nat) : bool :=
  (sizeof T <=? size) && (alignof T <=? alignment).

End AlignedUnion.

(** ** optional.hpp

    [optional<T>] for an alternative type [T]: the raw storage of one [T]
    and the flag [null_].  As for [variant], [destroyed_] is ghost state:
    the objects [operator=(nullopt_t)] has destroyed, latest first.  The
    constructor [optional(const value_type&)] is left out: it calls the raw
    [emplace] without naming the type to build. *)

Module Optional.
Section Optional.
Context {ty : Type} `{EqDecision ty} {V A : Type}.
Context {alts : @alternative_set ty V A}.
Context (T : ty).

Record optional : Type := {
  storage_ : @storage ty V;
  null_ : bool;
  destroyed_ : list V
}.

Definition with_storage (s : @storage ty V) (opt : optional) : optional :=
  {| storage_ := s; null_ := null_ opt; destroyed_ := destroyed_ opt |}.

Definition with_null (n : bool) (opt : optional) : optional :=
  {| storage_ := storage_ opt; null_ := n; destroyed_ := destroyed_ opt |}.

(** [optional()] and [optional(nullopt_t)]; [null_] has the default
    member initialiser [true]. *)
Definition null_optional : optional :=
  {| storage_ := None; null_ := true; destroyed_ := [] |}.

(** [explicit operator bool()] *)
Definition has_value (opt : optional) : bool := negb (null_ opt).

(** [operator*()]: the assertion, then the storage read as [T]. *)
Definition deref (opt : optional) : option V :=
  if null_ opt then None else get_storage T (storage_ opt).

(** [get(opt)] is [*opt]. *)
Definition get (opt : optional) : option V := deref opt.

(** [operator=(nullopt_t)]: the held object is destroyed, whatever [T]. *)
Definition assign_nullopt (opt : optional) : outcome optional :=
  if has_value opt then
    match deref opt with
    | Some x => Returns {| storage_ := None; null_ := true;
                           destroyed_ := x :: destroyed_ opt |}
    | None => Fault
    end
  else Returns (with_null true opt).

(** [~optional()] *)
Definition destroy (opt : optional) : outcome optional := assign_nullopt opt.

(** Placement construction into the member [storage_]. *)
Definition emplace_member (a : @args V A) (opt : optional)
    : outcome (optional * @args V A) :=
  match emplace_storage T a (storage_ opt) with
  | Returns (s, a') => Returns (with_storage s opt, a')
  | Throws (s, a') => Throws (with_storage s opt, a')
  | Fault => Fault
  end.

(** [optional(value_type &&val)]: [null_(false)], then the raw emplace. *)
Definition value_construct (val : V) : outcome (optional * @args V A) :=
  emplace_member (by_move val)
    {| storage_ := None; null_ := false; destroyed_ := [] |}.

(** [optional(const optional&)] and [optional(optional&&)]: [null_] is
    initialised from the source, then its object is copied or moved.  The
    result is the pair of the source and the new object. *)
Definition construct (moved : bool) (other : optional)
    : outcome (optional * optional) :=
  let this := {| storage_ := None; null_ := null_ other; destroyed_ := [] |} in
  if has_value other then
    match deref other with
    | None => Fault
    | Some x =>
        match emplace_member (forwarded moved x) this with
        | Returns (this', a') =>
            Returns (with_storage (Some (T, referenced x a')) other, this')
        | Throws (this', a') =>
            Throws (with_storage (Some (T, referenced x a')) other, this')
        | Fault => Fault
        end
    end
  else Returns (other, this).

(** The two overloads of [optional::assign]. *)
Definition assign (a : @args V A) (opt : optional)
    : outcome (optional * @args V A) :=
  match deref opt with
  | None => Fault
  | Some held =>
      if assignable T a then
        let '(h, a', ok) := assign_arg T held a in
        let opt' := with_storage (Some (T, h)) opt in
        if ok then Returns (opt', a') else Throws (opt', a')
      else
        match construct_from T a with
        | (None, a') => Throws (opt, a')
        | (Some tmp, a') =>
            let '(h, _, ok) := move_assign (ops T) held tmp in
            let opt' := with_storage (Some (T, h)) opt in
            if ok then Returns (opt', a') else Throws (opt', a')
        end
  end.

(** [emplace(optional<T> &opt, args...)] *)
Definition emplace (a : @args V A) (opt : optional)
    : outcome (optional * @args V A) :=
  and_then id
    (if has_value opt then assign a opt else emplace_member a opt)
    (fun '(opt', a') => Returns (with_null false opt', a')).

(** [operator=(const optional &other)] and [operator=(optional &&other)]:
    [emplace( *this, *other)], the source is dereferenced first. *)
Definition assign_optional (moved : bool) (other this : optional)
    : outcome (optional * optional) :=
  match deref other with
  | None => Fault
  | Some x =>
      match emplace (forwarded moved x) this with
      | Returns (this', a') =>
          Returns (with_storage (Some (T, referenced x a')) other, this')
      | Throws (this', a') =>
          Throws (with_storage (Some (T, referenced x a')) other, this')
      | Fault => Fault
      end
  end.

(** [operator=(const value_type&)] and [operator=(value_type&&)] *)
Definition assign_value (moved : bool) (val : V) (this : optional)
    : outcome (optional * @args V A) := emplace (forwarded moved val) this.

(** One branch of [swap]:
    [emplace<value_type>(this.storage_, std::move( *other));
     this.null_ = false; other = nullopt;] *)
Definition move_over (other this : optional) : outcome (optional * optional) :=
  match deref other with
  | None => Fault
  | Some x =>
      match emplace_member (by_move x) this with
      | Returns (this', a') =>
          and_then (fun o => (o, with_null false this'))
            (assign_nullopt (with_storage (Some (T, referenced x a')) other))
            (fun o => Returns (o, with_null false this'))
      | Throws (this', a') =>
          Throws (with_storage (Some (T, referenced x a')) other, this')
      | Fault => Fault
      end
  end.

(** [swap(optional &a, optional &b)] *)
Definition swap (a b : optional) : outcome (optional * optional) :=
  if has_value a && has_value b then
    match deref a, deref b with
    | Some x, Some y =>
        let '(x', y', ok) := swap_values (ops T) x y in
        let r := (with_storage (Some (T, x')) a, with_storage (Some (T, y')) b) in
        if ok then Returns r else Throws r
    | _, _ => Fault
    end
  else if has_value a && negb (has_value b) then move_over a b
  else if has_value b && negb (has_value a) then
    and_then (fun '(b', a') => (a', b')) (move_over b a)
      (fun '(b', a') => Returns (a', b'))
  else Returns (a, b).

(** [operator==(const optional&, const optional&)] *)
Definition optional_eq (a b : optional) : outcome bool :=
  if has_value a && has_value b then
    match deref a, deref b with
    | Some x, Some y => Returns (equal (ops T) x y)
    | _, _ => Fault
    end
  else Returns (negb (has_value a) && negb (has_value b)).

(** [operator==(const optional&, const value_type&)] *)
Definition optional_eq_value (a : optional) (b : V) : outcome bool :=
  if has_value a then
    match deref a with
    | Some x => Returns (equal (ops T) x b)
    | None => Fault
    end
  else Returns false.

(** [try_get(opt, val)] *)
Definition try_get (opt : optional) (val : @args V A)
    : outcome (option V * @args V A) :=
  if has_value opt then
    match deref opt with
    | Some x =>
        match copy_ctor (ops T) x with
        | Some r => Returns (Some r, val)
        | None => Throws (None, val)
        end
    | None => Fault
    end
  else
    match construct_from T val with
    | (Some r, val') => Returns (Some r, val')
    | (None, val') => Throws (None, val')
    end.

(** [visit(opt, visitor)] *)
Definition visit {R : Type} (visitor : V -> outcome R) (skip : outcome R)
    (opt : optional) : outcome R :=
  if has_value opt then
    match get opt with
    | Some x => visitor x
    | None => Fault
    end
  else skip.

(** [std::hash<optional<T>>::operator()] *)
Definition hash (arg : optional) : outcome N :=
  if has_value arg then
    match deref arg with
    | Some x => Returns (std_hash (ops T) x)
    | None => Fault
    end
  else Returns 19937%N.

(** The two states of the data model. *)
Definition engaged (opt : optional) (x : V) : Prop :=
  null_ opt = false /\ storage_ opt = Some (T, x).

Definition disengaged (opt : optional) : Prop :=
  null_ opt = true /\ storage_ opt = None.

Definition consistent (opt : optional) : Prop :=
  disengaged opt \/ exists x, engaged opt x.

End Optional.
End Optional.

(** ** A variant of one alternative seen as an optional *)

(** The image of a state under [f], for either way of leaving. *)
Definition outcome_map {S S' : Type} (f : S -> S') (o : outcome S) : outcome S' :=
  match o with
  | Returns s => Returns (f s)
  | Throws s => Throws (f s)
  | Fault => Fault
  end.

Section AsOptional.
Context {ty : Type} `{EqDecision ty} {V A : Type}.
Context {alts : @alternative_set ty V A}.

(** The same storage, [null_] for "no value", and the destroyed objects
    without their type. *)
Definition as_optional (var : @variant ty V) : @Optional.optional ty V :=
  {| Optional.storage_ := storage_ var;
     Optional.null_ := negb (has_value var);
     Optional.destroyed_ := map snd (destroyed_ var) |}.

Definition as_optional_with {X : Type} (s : @variant ty V * X)
    : @Optional.optional ty V * X := (as_optional s.1, s.2).

Definition as_optionals (s : @variant ty V * @variant ty V)
    : @Optional.optional ty V * @Optional.optional ty V :=
  (as_optional s.1, as_optional s.2).

End AsOptional.

(** ** More example alternatives *)

(** A type whose move constructor throws from a negative state and leaves
    the source as it was. *)
Definition guard_ops : @type_ops Z Z := {|
  is_trivial := false;
  is_nothrow_move_constructible := false;
  is_nothrow_copy_constructible := false;
  is_copy_assignable := true;
  copy_ctor := fun x => Some x;
  move_ctor := fun x => if (x <? 0)%Z then (None, x) else (Some x, 0%Z);
  ctor := fun a => Some a;
  ctor_noexcept := fun _ => false;
  copy_assign := fun _ y => (y, true);
  move_assign := fun _ y => (y, 0%Z, true);
  assignable_from := fun _ => false;
  assign_from := fun x _ => (x, true);
  swap_values := fun x y => (y, x, true);
  equal := Z.eqb;
  std_hash := Z.to_N;
  storage_associated := false
|}.

(** [variant<int, guard>] *)
Definition guarded_set : @alternative_set cpp_type Z Z :=
  {| ops := fun T => match T with t_string => guard_ops | _ => scalar_ops end;
     Types := [t_int; t_string] |}.

(** [variant<std::string>] and [optional<std::string>] *)
Definition string_set : @alternative_set cpp_type Z Z :=
  {| ops := cpp_ops; Types := [t_string] |}.

(** An optional holding the state [x]. *)
Definition engaged_with (T : cpp_type) (x : Z) : @Optional.optional cpp_type Z :=
  {| Optional.storage_ := Some (T, x); Optional.null_ := false;
     Optional.destroyed_ := [] |}.

(** Sizes and alignments of the example types on a common 64-bit target. *)
Definition example_sizeof (T : cpp_type) : nat :=
  match T with t_int => 4 | t_float => 4 | t_string => 32 end.

Definition example_alignof (T : cpp_type) : nat :=
  match T with t_int => 4 | t_float => 4 | t_string => 8 end.

(** * Verification *)

Section Theory.
Context {ty : Type} `{EqDecision ty} {V A : Type}.
Context {alts : @alternative_set ty V A}.
Implicit Types (T U : ty) (x y : V) (arg : @args V A).
Implicit Types (var other this a b : @variant ty V).

(** ** Reading a well-formed variant *)

Lemma holds_index_lt var T x : holds var T x -> which_ var < invalid_index.
Proof.
  intros (Hin & Hw & _). rewrite Hw. unfold invalid_index.
  apply list_elem_of_lookup_1 in Hin as [i Hi].
  pose proof (get_index_le T Types) as Hle.
  destruct (decide (get_index T Types = length Types)) as [Heq|]; [|lia].
  pose proof (get_index_lookup T Types) as Hl.
  rewrite Heq in Hl. rewrite lookup_ge_None_2 in Hl; [|lia].
  discriminate Hl. eapply list_elem_of_lookup_2; eassumption.
Qed.

Lemma holds_has_value var T x : holds var T x -> has_value var = true.
Proof.
  intros Hh. apply holds_index_lt in Hh. unfold has_value.
  apply negb_true_iff, Nat.eqb_neq. lia.
Qed.

Lemma empty_has_value var : is_empty var -> has_value var = false.
Proof.
  unfold is_empty, has_value. intros ->. rewrite Nat.eqb_refl. reflexivity.
Qed.

Lemma has_value_false var : has_value var = false -> is_empty var.
Proof.
  unfold is_empty, has_value. intros Hv.
  apply negb_false_iff, Nat.eqb_eq in Hv. exact Hv.
Qed.

Lemma get_storage_same T x : get_storage T (Some (T, x)) = Some x.
Proof. simpl. destruct (decide (T = T)); [reflexivity|contradiction]. Qed.

Lemma holds_get var T x : holds var T x -> get T var = Some x.
Proof.
  intros Hh. unfold get. rewrite (holds_has_value _ _ _ Hh).
  destruct Hh as (_ & Hw & Hs). unfold which. rewrite Hw, Nat.eqb_refl, Hs.
  apply get_storage_same.
Qed.

Lemma holds_lookup var T x : holds var T x -> Types !! which var = Some T.
Proof.
  intros (Hin & Hw & _). unfold which. rewrite Hw. apply get_index_lookup, Hin.
Qed.

(** [visit] on a variant that holds [T] calls the visitor on the held
    object; on an empty variant it does nothing. *)
Lemma visit_holds {R : Type} (visitor : ty -> V -> outcome R) skip var T x :
  holds var T x -> variant_visit visitor skip var = visitor T x.
Proof.
  intros Hh. unfold variant_visit, call_visitor.
  rewrite (holds_has_value _ _ _ Hh), (holds_lookup _ _ _ Hh), (holds_get _ _ _ Hh).
  reflexivity.
Qed.

Lemma visit_empty {R : Type} (visitor : ty -> V -> outcome R) skip var :
  is_empty var -> variant_visit visitor skip var = skip.
Proof.
  intros He. unfold variant_visit. rewrite (empty_has_value _ He). reflexivity.
Qed.

Lemma holds_inj var T x U y : holds var T x -> holds var U y -> T = U /\ x = y.
Proof.
  intros (_ & _ & Hs) (_ & _ & Hs'). rewrite Hs in Hs'. split; congruence.
Qed.

Lemma holds_not_empty var T x : holds var T x -> ~ is_empty var.
Proof.
  intros Hh He. apply holds_index_lt in Hh. unfold is_empty in He. lia.
Qed.

(** ** Index resolution *)

(** C10: if [T] occurs in [Types...], [get_index] is the position of its
    first occurrence (so a repeated type resolves to the earliest position);
    if [T] does not occur, it is the sentinel [N = sizeof...(Types)]. *)
Theorem get_index_first_occurrence T (Ts : list ty) :
  (T ∈ Ts ->
     Ts !! get_index T Ts = Some T
     /\ forall j, j < get_index T Ts -> Ts !! j <> Some T)
  /\ (T ∉ Ts -> get_index T Ts = length Ts).
Proof.
  split.
  - intros Hin. split; [apply get_index_lookup, Hin|].
    intros j Hj. apply get_index_first, Hj.
  - apply get_index_absent.
Qed.

(** ** Hash *)

(** C9: the hash of an empty variant is the literal 19937, whatever the
    alternative set; the hash of a variant that holds [T] is [std::hash<T>]
    of the held object. *)
Theorem hash_of_variant var :
  (is_empty var -> variant_hash var = Returns 19937%N)
  /\ (forall T x, holds var T x ->
        variant_hash var = Returns (std_hash (ops T) x)).
Proof.
  split.
  - intros He. unfold variant_hash. rewrite (empty_has_value _ He). reflexivity.
  - intros T x Hh. unfold variant_hash.
    rewrite (holds_has_value _ _ _ Hh). simpl.
    rewrite (visit_holds _ _ _ _ _ Hh). reflexivity.
Qed.

(** ** Equality *)

Lemma eq_both_empty a b :
  is_empty a -> is_empty b -> variant_eq a b = Returns true.
Proof.
  intros Ha Hb. unfold variant_eq.
  rewrite (empty_has_value _ Ha), (empty_has_value _ Hb). reflexivity.
Qed.

Lemma eq_same_alternative a b T x y :
  holds a T x -> holds b T y -> variant_eq a b = Returns (equal (ops T) x y).
Proof.
  intros Ha Hb. unfold variant_eq.
  rewrite (holds_has_value _ _ _ Ha). simpl.
  assert (which a = which b) as ->.
  { unfold which. destruct Ha as (_ & Hwa & _), Hb as (_ & Hwb & _). congruence. }
  rewrite Nat.eqb_refl, (visit_holds _ _ _ _ _ Hb).
  unfold variant_compare_visitor. rewrite (holds_get _ _ _ Ha). reflexivity.
Qed.

Lemma eq_different_index a b :
  which a <> which b -> variant_eq a b = Returns false.
Proof.
  intros Hne. unfold variant_eq.
  destruct (has_value a) eqn:Ha, (has_value b) eqn:Hb; simpl.
  1-3: apply Nat.eqb_neq in Hne; rewrite Hne; reflexivity.
  apply has_value_false in Ha, Hb. unfold is_empty, which in *. congruence.
Qed.

(** C5: [a == b] returns, and it is true exactly when both are empty, or
    both hold the same alternative and that type's [==] on the held objects
    is true; variants with different indices are not equal. *)
Theorem variant_eq_spec a b :
  well_formed a -> well_formed b ->
  exists r, variant_eq a b = Returns r
    /\ (r = true <->
          (is_empty a /\ is_empty b)
          \/ exists T x y, holds a T x /\ holds b T y /\ equal (ops T) x y = true)
    /\ (which a <> which b -> r = false).
Proof.
  intros Ha Hb.
  destruct (decide (which a = which b)) as [Heq|Hne].
  - destruct Ha as [Ha|(T & x & Ha)].
    + assert (is_empty b) as Hb' by (unfold is_empty, which in *; congruence).
      exists true. split; [apply eq_both_empty; assumption|].
      split; [|intros; contradiction]. split; auto.
    + destruct Hb as [Hb|(U & y & Hb)].
      { exfalso. apply (holds_not_empty _ _ _ Ha).
        unfold is_empty, which in *. congruence. }
      assert (T = U) as <-.
      { pose proof (holds_lookup _ _ _ Ha) as H1.
        pose proof (holds_lookup _ _ _ Hb) as H2. congruence. }
      exists (equal (ops T) x y).
      split; [apply eq_same_alternative; assumption|].
      split; [|intros; contradiction]. split.
      * intros Hr. right. exists T, x, y. auto.
      * intros [[He _]|(U & x' & y' & Ha' & Hb' & Hr)].
        { exfalso. exact (holds_not_empty _ _ _ Ha He). }
        destruct (holds_inj _ _ _ _ _ Ha Ha') as [-> ->].
        destruct (holds_inj _ _ _ _ _ Hb Hb') as [_ ->]. exact Hr.
  - exists false. split; [apply eq_different_index, Hne|].
    split; [|reflexivity]. split; [discriminate|].
    intros [[Ea Eb]|(T & x & y & Ha' & Hb' & _)]; exfalso; apply Hne.
    + unfold is_empty, which in *. congruence.
    + destruct Ha' as (_ & Hwa & _), Hb' as (_ & Hwb & _).
      unfold which. congruence.
Qed.

(** ** Assignment from an empty variant *)

(** C3: for a non-trivial set, copy- or move-assigning an empty source to a
    target that holds a value returns with the target (and the source)
    unchanged: [visit] skips the emplace visitor for an empty source. *)
Theorem assign_from_empty_source other this T x :
  trivial = false -> is_empty other -> holds this T x ->
  copy_assign_variant other this = Returns (other, this)
  /\ move_assign_variant other this = Returns (other, this).
Proof.
  intros Htriv He _.
  unfold copy_assign_variant, move_assign_variant, assign_variant, assign_visit.
  rewrite Htriv, !(visit_empty _ _ _ He). split; reflexivity.
Qed.

(** ** emplace *)

Lemma get_index_inj T U :
  T ∈ Types -> get_index T Types = get_index U Types -> U ∈ Types -> T = U.
Proof.
  intros HT Heq HU.
  apply get_index_lookup in HT, HU. rewrite Heq in HT. congruence.
Qed.

Lemma index_valid T : T ∈ Types -> (get_index T Types =? invalid_index) = false.
Proof.
  intros Hin. apply Nat.eqb_neq. intros Heq.
  apply get_index_lookup in Hin. rewrite Heq in Hin.
  unfold invalid_index in Hin. rewrite lookup_ge_None_2 in Hin; [discriminate|lia].
Qed.

Lemma holds_elem var T x : holds var T x -> T ∈ Types.
Proof. intros (Hin & _). exact Hin. Qed.

(** C1: a non-trivial variant holds [U]; [emplace<T>] for another
    alternative [T] whose selected constructor may throw and whose move
    constructor cannot: when the constructor throws, the exception leaves
    the variant exactly as it was (tag, held object, nothing destroyed). *)
Theorem emplace_strong_safety T arg var U y :
  trivial = false -> holds var U y -> T ∈ Types -> T <> U ->
  noexcept_construct T arg = false ->
  is_nothrow_move_constructible (ops T) = true ->
  (construct_from T arg).1 = None ->
  emplace T arg var = Throws (var, (construct_from T arg).2).
Proof.
  intros Htriv Hh HT Hne Hnx Hmv Hthrow. unfold emplace.
  rewrite (index_valid _ HT), Htriv, (holds_has_value _ _ _ Hh). simpl.
  assert ((get_index T Types =? which_ var) = false) as ->.
  { apply Nat.eqb_neq. intros Heq. apply Hne.
    destruct Hh as (HU & Hw & _). rewrite Hw in Heq.
    exact (get_index_inj _ _ HT Heq HU). }
  rewrite Hnx, Hmv. simpl. unfold emplace_impl.
  destruct (construct_from T arg) as [[tmp|] arg']; simpl in *; [discriminate|].
  reflexivity.
Qed.

(** [emplace<T>] on a variant that holds [T] is the [assign] branch. *)
Lemma emplace_in_place T arg var held :
  trivial = false -> holds var T held ->
  emplace T arg var =
    let updated h := {| storage_ := Some (T, h);
                        which_ := get_index T Types;
                        destroyed_ := destroyed_ var |} in
    if assignable T arg then
      let '(h, arg', ok) := assign_arg T held arg in
      (if ok then Returns else Throws) (updated h, arg')
    else
      match construct_from T arg with
      | (None, arg') => Throws (var, arg')
      | (Some tmp, arg') =>
          let '(h, _, ok) := move_assign (ops T) held tmp in
          (if ok then Returns else Throws) (updated h, arg')
      end.
Proof.
  intros Htriv Hh. unfold emplace.
  rewrite (index_valid _ (holds_elem _ _ _ Hh)), Htriv, (holds_has_value _ _ _ Hh).
  simpl.
  assert (which_ var = get_index T Types) as Hw by (destruct Hh as (_ & ? & _); done).
  rewrite <- Hw, Nat.eqb_refl. unfold assign. rewrite (holds_get _ _ _ Hh).
  destruct (assignable T arg).
  - destruct (assign_arg T held arg) as [[h arg'] [|]]; simpl; reflexivity.
  - destruct (construct_from T arg) as [[tmp|] arg']; simpl; [|reflexivity].
    destruct (move_assign (ops T) held tmp) as [[h s] [|]]; simpl; reflexivity.
Qed.

(** C7: a non-trivial variant already holds [T]; [emplace<T>] updates the
    held object in place.  An argument the alternative can be assigned
    from is assigned directly, by the alternative's own operator: its copy
    assignment for a [const T&], its move assignment for a [T&&], its
    [operator=] for any other single argument it accepts.  An argument it
    cannot be assigned from constructs a temporary [T(args...)], which is
    move-assigned to the held object; if that constructor throws, the
    variant is as it was.  Whether the call returns or throws, no destructor
    has run on the held object ([destroyed_] is unchanged), the storage
    holds a [T] and the tag is [index(T)]. *)
Theorem emplace_same_alternative T var held :
  trivial = false -> holds var T held ->
  (forall arg,
     leaves (fun s => which s.1 = which var
                      /\ which s.1 = get_index T Types
                      /\ destroyed_ s.1 = destroyed_ var
                      /\ exists h, storage_ s.1 = Some (T, h))
       (emplace T arg var))
  /\ (forall y h ok,
        is_copy_assignable (ops T) = true ->
        copy_assign (ops T) held y = (h, ok) ->
        emplace T (by_copy y) var =
          (if ok then Returns else Throws)
            (with_storage (Some (T, h)) var, by_copy y))
  /\ (forall y h y' ok,
        move_assign (ops T) held y = (h, y', ok) ->
        emplace T (by_move y) var =
          (if ok then Returns else Throws)
            (with_storage (Some (T, h)) var, by_move y'))
  /\ (forall p h ok,
        assignable_from (ops T) p = true ->
        assign_from (ops T) held p = (h, ok) ->
        emplace T (pack p) var =
          (if ok then Returns else Throws)
            (with_storage (Some (T, h)) var, pack p))
  /\ (forall p,
        assignable_from (ops T) p = false ->
        emplace T (pack p) var =
          match ctor (ops T) p with
          | None => Throws (var, pack p)
          | Some tmp =>
              let '(h, _, ok) := move_assign (ops T) held tmp in
              (if ok then Returns else Throws)
                (with_storage (Some (T, h)) var, pack p)
          end)
  /\ (forall y,
        is_copy_assignable (ops T) = false ->
        emplace T (by_copy y) var =
          match copy_ctor (ops T) y with
          | None => Throws (var, by_copy y)
          | Some tmp =>
              let '(h, _, ok) := move_assign (ops T) held tmp in
              (if ok then Returns else Throws)
                (with_storage (Some (T, h)) var, by_copy y)
          end).
Proof.
  intros Htriv Hh.
  assert (which_ var = get_index T Types) as Hw by (destruct Hh as (_ & ? & _); done).
  assert (forall h, {| storage_ := Some (T, h); which_ := get_index T Types;
                       destroyed_ := destroyed_ var |}
                    = with_storage (Some (T, h)) var) as Hupd.
  { intros h. unfold with_storage. rewrite Hw. reflexivity. }
  repeat split.
  - intros arg. rewrite (emplace_in_place _ _ _ _ Htriv Hh). cbv zeta.
    destruct (assignable T arg).
    + destruct (assign_arg T held arg) as [[h arg'] [|]]; simpl;
        unfold which; simpl; eauto.
    + destruct (construct_from T arg) as [[tmp|] arg']; simpl.
      * destruct (move_assign (ops T) held tmp) as [[h s] [|]]; simpl;
          unfold which; simpl; eauto.
      * unfold which. destruct Hh as (_ & _ & Hs). eauto.
  - intros y h ok Hca Heq. rewrite (emplace_in_place _ _ _ _ Htriv Hh).
    simpl. rewrite Hca, Heq, Hupd. reflexivity.
  - intros y h y' ok Heq. rewrite (emplace_in_place _ _ _ _ Htriv Hh).
    simpl. rewrite Heq, Hupd. reflexivity.
  - intros p h ok Haf Heq. rewrite (emplace_in_place _ _ _ _ Htriv Hh).
    simpl. rewrite Haf, Heq, Hupd. reflexivity.
  - intros p Haf. rewrite (emplace_in_place _ _ _ _ Htriv Hh).
    simpl. rewrite Haf. destruct (ctor (ops T) p) as [tmp|]; [|reflexivity].
    destruct (move_assign (ops T) held tmp) as [[h s] ok].
    rewrite Hupd. reflexivity.
  - intros y Hca. rewrite (emplace_in_place _ _ _ _ Htriv Hh).
    simpl. rewrite Hca. destruct (copy_ctor (ops T) y) as [tmp|]; [|reflexivity].
    destruct (move_assign (ops T) held tmp) as [[h s] ok].
    rewrite Hupd. reflexivity.
Qed.

(** ** Copy and move construction *)

Lemma with_storage_same var T x :
  storage_ var = Some (T, x) -> with_storage (Some (T, x)) var = var.
Proof. destruct var as [s w d]. simpl. intros ->. reflexivity. Qed.

(** From a source that holds a value the generic path never reads the tag
    of the object under construction. *)
Lemma copy_construct_holding w other T x :
  trivial = false -> construct_instantiates = true -> holds other T x ->
  copy_construct w other =
    match copy_ctor (ops T) x with
    | Some x' => Returns (other, {| storage_ := Some (T, x');
                                    which_ := which_ other; destroyed_ := [] |})
    | None => Throws (other, uninitialized w)
    end.
Proof.
  intros Htriv Hi Hh. unfold copy_construct, construct, construct_visit.
  rewrite Htriv, Hi, (holds_has_value _ _ _ Hh). simpl.
  rewrite (visit_holds _ _ _ _ _ Hh).
  unfold variant_emplace_visitor_storage, emplace_member, emplace_storage. simpl.
  assert (with_storage (Some (T, x)) other = other) as Hsame
    by (apply with_storage_same; destruct Hh as (_ & _ & ?); done).
  destruct (copy_ctor (ops T) x) as [x'|]; simpl; rewrite Hsame; reflexivity.
Qed.

Lemma move_construct_holding w other T x :
  trivial = false -> construct_instantiates = true -> holds other T x ->
  move_construct w other =
    match move_ctor (ops T) x with
    | (Some x', s) =>
        Returns (with_storage (Some (T, s)) other,
                 {| storage_ := Some (T, x'); which_ := which_ other;
                    destroyed_ := [] |})
    | (None, s) => Throws (with_storage (Some (T, s)) other, uninitialized w)
    end.
Proof.
  intros Htriv Hi Hh. unfold move_construct, construct, construct_visit.
  rewrite Htriv, Hi, (holds_has_value _ _ _ Hh). simpl.
  rewrite (visit_holds _ _ _ _ _ Hh).
  unfold variant_emplace_visitor_storage, emplace_member, emplace_storage. simpl.
  destruct (move_ctor (ops T) x) as [[x'|] s]; simpl; reflexivity.
Qed.

(** From an empty source the generic path runs [*this = nullvar] on the
    object under construction, which tests [which_] before any write to it.
    Only the value [N] gets through. *)
Lemma construct_from_empty_uninitialized moved w other :
  trivial = false -> is_empty other -> w <> invalid_index ->
  construct moved other (uninitialized w) = Fault.
Proof.
  intros Htriv He Hw. unfold construct, construct_visit.
  rewrite Htriv, (empty_has_value _ He). simpl.
  unfold assign_nullvar. rewrite Htriv. simpl.
  assert (has_value (uninitialized w) = true) as Hv.
  { unfold has_value. simpl. apply negb_true_iff, Nat.eqb_neq, Hw. }
  rewrite Hv. unfold variant_visit. rewrite Hv. simpl.
  destruct (Types !! w) as [T|]; [|reflexivity].
  unfold call_visitor, get. simpl.
  destruct (has_value (uninitialized w) && (w =? get_index T Types)); reflexivity.
Qed.

Lemma construct_from_empty_lucky moved other :
  trivial = false -> is_empty other ->
  construct moved other (uninitialized invalid_index) = Returns (other, null_variant).
Proof.
  intros Htriv He. unfold construct, construct_visit.
  rewrite Htriv, (empty_has_value _ He). simpl.
  unfold assign_nullvar. rewrite Htriv. simpl.
  unfold has_value. simpl. rewrite Nat.eqb_refl. reflexivity.
Qed.

(** ** Reset *)

Lemma with_which_same var : with_which (which_ var) var = var.
Proof. destruct var; reflexivity. Qed.

Lemma reset_empty var : is_empty var -> assign_nullvar var = Returns var.
Proof.
  intros He. unfold assign_nullvar.
  rewrite (empty_has_value _ He), andb_false_r. simpl.
  unfold is_empty in He. rewrite <- He, with_which_same. reflexivity.
Qed.

Lemma reset_trivial var :
  trivial = true -> assign_nullvar var = Returns (with_which invalid_index var).
Proof. intros Ht. unfold assign_nullvar. rewrite Ht. reflexivity. Qed.

(** Over a non-trivial set the held object is destroyed, once. *)
Lemma reset_holds var T x :
  trivial = false -> holds var T x ->
  assign_nullvar var =
    Returns {| storage_ := None; which_ := invalid_index;
               destroyed_ := (T, x) :: destroyed_ var |}.
Proof.
  intros Ht Hh. unfold assign_nullvar.
  rewrite Ht, (holds_has_value _ _ _ Hh). simpl.
  rewrite (visit_holds _ _ _ _ _ Hh). reflexivity.
Qed.

Lemma settled_well_formed var : settled var -> well_formed var.
Proof. intros [[He _]|Hh]; [left|right]; assumption. Qed.

Lemma reset_settled var :
  trivial = false -> settled var ->
  exists var', assign_nullvar var = Returns var'
    /\ is_empty var' /\ storage_ var' = None.
Proof.
  intros Ht [[He Hs]|(T & x & Hh)].
  - exists var. split; [apply reset_empty, He|]. split; assumption.
  - eexists. split; [apply (reset_holds _ _ _ Ht Hh)|]. split; reflexivity.
Qed.

(** ** What emplace leaves *)

Lemma holds_intro T x w d :
  T ∈ Types -> w = get_index T Types ->
  holds {| storage_ := Some (T, x); which_ := w; destroyed_ := d |} T x.
Proof. intros Hin ->. split; [exact Hin|]. split; reflexivity. Qed.

Lemma emplace_member_spec T arg var :
  emplace_member T arg var =
    match construct_from T arg with
    | (Some x, arg') => Returns (with_storage (Some (T, x)) var, arg')
    | (None, arg') => Throws (with_storage None var, arg')
    end.
Proof.
  unfold emplace_member, emplace_storage.
  destruct (construct_from T arg) as [[x|] arg']; reflexivity.
Qed.

(** [emplace] into an empty variant. *)
Lemma emplace_empty T arg var :
  T ∈ Types -> is_empty var ->
  emplace T arg var =
    match construct_from T arg with
    | (Some x, arg') =>
        Returns ({| storage_ := Some (T, x); which_ := get_index T Types;
                    destroyed_ := destroyed_ var |}, arg')
    | (None, arg') => Throws (with_storage None var, arg')
    end.
Proof.
  intros HT He. unfold emplace.
  rewrite (index_valid _ HT), (empty_has_value _ He), orb_true_r.
  rewrite emplace_member_spec.
  destruct (construct_from T arg) as [[x|] arg']; reflexivity.
Qed.

(** Whatever the arguments and whichever way it leaves, [emplace] on a
    settled variant of a non-trivial set leaves a settled variant. *)
Lemma emplace_settled T arg var :
  trivial = false -> T ∈ Types -> settled var ->
  leaves (fun '(var', _) => settled var') (emplace T arg var).
Proof.
  intros Ht HT [[He Hs]|(U & y & Hh)].
  - rewrite (emplace_empty _ _ _ HT He).
    destruct (construct_from T arg) as [[x|] arg']; simpl.
    + right. exists T, x. apply holds_intro; [exact HT|reflexivity].
    + left. split; [exact He|reflexivity].
  - destruct (decide (T = U)) as [<-|Hne].
    + rewrite (emplace_in_place _ _ _ _ Ht Hh). cbv zeta.
      assert (forall h, settled {| storage_ := Some (T, h);
                which_ := get_index T Types; destroyed_ := destroyed_ var |}) as Hup.
      { intros h. right. exists T, h. apply holds_intro; [exact HT|reflexivity]. }
      destruct (assignable T arg).
      * destruct (assign_arg T y arg) as [[h arg'] [|]]; simpl; apply Hup.
      * destruct (construct_from T arg) as [[tmp|] arg']; simpl.
        -- destruct (move_assign (ops T) y tmp) as [[h s] [|]]; simpl; apply Hup.
        -- right. exists T, y. exact Hh.
    + unfold emplace.
      rewrite (index_valid _ HT), Ht, (holds_has_value _ _ _ Hh). simpl.
      assert ((get_index T Types =? which_ var) = false) as ->.
      { apply Nat.eqb_neq. intros Heq. apply Hne.
        destruct Hh as (HU & Hw & _). rewrite Hw in Heq.
        exact (get_index_inj _ _ HT Heq HU). }
      unfold emplace_impl.
      destruct (negb (noexcept_construct T arg)
                && is_nothrow_move_constructible (ops T)).
      * destruct (construct_from T arg) as [[tmp|] arg'] eqn:Hc; simpl.
        -- rewrite (reset_holds _ _ _ Ht Hh). simpl.
           rewrite emplace_member_spec. simpl.
           destruct (move_ctor (ops T) tmp) as [[x'|] s]; simpl.
           ++ right. exists T, x'. apply holds_intro; [exact HT|reflexivity].
           ++ left. split; reflexivity.
        -- right. exists U, y. exact Hh.
      * rewrite (reset_holds _ _ _ Ht Hh). simpl.
        rewrite emplace_member_spec.
        destruct (construct_from T arg) as [[x'|] arg']; simpl.
        -- right. exists T, x'. apply holds_intro; [exact HT|reflexivity].
        -- left. split; reflexivity.
Qed.

(** ** construct and assignment from a source that holds a value *)


Lemma assign_visit_holding moved other this T x :
  holds other T x ->
  assign_visit moved other this =
    match emplace T (forwarded moved x) this with
    | Returns (this', arg') =>
        Returns (with_storage (Some (T, referenced x arg')) other, this')
    | Throws (this', arg') =>
        Throws (with_storage (Some (T, referenced x arg')) other, this')
    | Fault => Fault
    end.
Proof.
  intros Hh. unfold assign_visit.
  rewrite (visit_holds _ _ _ _ _ Hh). reflexivity.
Qed.

Lemma holds_with_storage var T x s :
  holds var T x -> holds (with_storage (Some (T, s)) var) T s.
Proof. intros (Hin & Hw & _). split; [exact Hin|]. split; [exact Hw|reflexivity]. Qed.

(** ** Variants a client cannot tell apart *)

Lemma held_value_holds var T x : holds var T x -> held_value var = Some (T, x).
Proof.
  intros Hh. unfold held_value. rewrite (holds_has_value _ _ _ Hh).
  destruct Hh as (_ & _ & Hs). exact Hs.
Qed.


Lemma same_value_holds a b T x :
  holds a T x -> holds b T x -> same_value a b.
Proof.
  intros Ha Hb. split.
  - unfold which. destruct Ha as (_ & Hwa & _), Hb as (_ & Hwb & _). congruence.
  - rewrite (held_value_holds _ _ _ Ha), (held_value_holds _ _ _ Hb). reflexivity.
Qed.


Lemma holds_same_index a b T x U y :
  holds a T x -> holds b U y -> which a = which b -> T = U.
Proof.
  intros Ha Hb Heq.
  pose proof (holds_lookup _ _ _ Ha) as H1.
  pose proof (holds_lookup _ _ _ Hb) as H2. congruence.
Qed.

(** ** The invariant, operation by operation *)

Lemma ends_in_mono {S : Type} (P P' Q Q' : S -> Prop) (o : outcome S) :
  (forall s, P s -> P' s) -> (forall s, Q s -> Q' s) ->
  ends_in P Q o -> ends_in P' Q' o.
Proof. intros HP HQ. destruct o; simpl; auto. Qed.

Lemma settled_invariant var : settled var -> invariant var.
Proof.
  intros [[He Hs]|(T & x & Hh)]; unfold invariant, which.
  - unfold is_empty in He. split; [lia|]. split; [tauto|]. intros i Hi Hlt. lia.
  - pose proof (holds_index_lt _ _ _ Hh) as Hlt.
    pose proof (holds_lookup _ _ _ Hh) as Hl.
    destruct Hh as (_ & _ & Hs).
    split; [lia|]. split.
    + split; [lia|]. rewrite Hs. discriminate.
    + intros i <- _. exists T, x. split; assumption.
Qed.

Lemma invariant_settled var : NoDup Types -> invariant var -> settled var.
Proof.
  intros Hnd (Hle & Hiff & Hobj). unfold which in *.
  destruct (decide (which_ var = invalid_index)) as [Heq|Hne].
  - left. split; [exact Heq|]. apply Hiff, Heq.
  - right. destruct (Hobj _ eq_refl) as (T & x & Hl & Hs); [lia|].
    exists T, x. split; [eapply list_elem_of_lookup_2; eassumption|].
    split; [|exact Hs]. symmetry. apply get_index_nth; assumption.
Qed.

Lemma settled_has_value var :
  settled var -> has_value var = true -> exists T x, holds var T x.
Proof.
  intros [[He _]|Hh] Hv; [|exact Hh].
  rewrite (empty_has_value _ He) in Hv. discriminate.
Qed.

Lemma settled_holds var T x : holds var T x -> settled var.
Proof. intros Hh. right. exists T, x. exact Hh. Qed.

Lemma value_construct_settled w T arg :
  T ∈ Types ->
  ends_in (of_variant settled) (fun _ => True) (value_construct w T arg).
Proof.
  intros HT. unfold value_construct.
  rewrite (index_valid _ HT), emplace_member_spec.
  destruct (construct_from T arg) as [[x|] arg']; simpl; [|exact I].
  apply (settled_holds _ T x), holds_intro; [exact HT|reflexivity].
Qed.

Lemma copy_construct_settled w other :
  trivial = false -> construct_instantiates = true ->
  settled other -> has_value other = true ->
  ends_in (both settled) (of_variant settled) (copy_construct w other).
Proof.
  intros Ht Hi Hs Hv. destruct (settled_has_value _ Hs Hv) as (T & x & Hh).
  rewrite (copy_construct_holding _ _ _ _ Ht Hi Hh).
  destruct (copy_ctor (ops T) x) as [x'|]; simpl; [|exact Hs].
  split; [exact Hs|]. simpl.
  apply (settled_holds _ T x'), holds_intro;
    [exact (holds_elem _ _ _ Hh)|destruct Hh as (_ & ? & _); done].
Qed.

Lemma move_construct_settled w other :
  trivial = false -> construct_instantiates = true ->
  settled other -> has_value other = true ->
  ends_in (both settled) (of_variant settled) (move_construct w other).
Proof.
  intros Ht Hi Hs Hv. destruct (settled_has_value _ Hs Hv) as (T & x & Hh).
  rewrite (move_construct_holding _ _ _ _ Ht Hi Hh).
  pose proof (holds_with_storage _ _ _ (move_ctor (ops T) x).2 Hh) as Ho.
  destruct (move_ctor (ops T) x) as [[x'|] s]; simpl in *.
  - split; [exact (settled_holds _ _ _ Ho)|]. simpl.
    apply (settled_holds _ T x'), holds_intro;
      [exact (holds_elem _ _ _ Hh)|destruct Hh as (_ & ? & _); done].
  - exact (settled_holds _ _ _ Ho).
Qed.

Lemma assign_variant_settled moved other this :
  trivial = false -> settled other -> settled this ->
  leaves (both settled) (assign_variant moved other this).
Proof.
  intros Ht Ho Hs. unfold assign_variant. rewrite Ht.
  destruct Ho as [[He Hn]|(T & x & Hh)].
  - unfold assign_visit. rewrite (visit_empty _ _ _ He). simpl.
    split; [left; split; assumption|exact Hs].
  - rewrite (assign_visit_holding _ _ _ _ _ Hh).
    pose proof (emplace_settled T (forwarded moved x) this Ht
                  (holds_elem _ _ _ Hh) Hs) as He.
    destruct (emplace T (forwarded moved x) this) as [[this' arg']|[this' arg']|];
      simpl in *; [| |exact He].
    + split; [|exact He]. simpl.
      exact (settled_holds _ _ _ (holds_with_storage _ _ _ _ Hh)).
    + split; [|exact He]. simpl.
      exact (settled_holds _ _ _ (holds_with_storage _ _ _ _ Hh)).
Qed.

Lemma reset_leaves_settled var :
  trivial = false -> settled var -> leaves settled (assign_nullvar var).
Proof.
  intros Ht Hs. destruct (reset_settled _ Ht Hs) as (var' & -> & He & Hn).
  simpl. left. split; assumption.
Qed.

Lemma emplace_keeps_settled T arg var :
  trivial = false -> T ∈ Types -> settled var ->
  ends_in (of_variant settled) (of_variant settled) (emplace T arg var).
Proof.
  intros Ht HT Hs. pose proof (emplace_settled T arg var Ht HT Hs) as He.
  destruct (emplace T arg var) as [[v r]|[v r]|]; exact He.
Qed.

(** Over a non-trivial set whose generic constructors can be instantiated,
    every operation that has an instance keeps the variants settled. *)
Lemma operations_preserve_settled :
  trivial = false -> construct_instantiates = true ->
  operations_preserve settled settled (fun other => has_value other = true).
Proof.
  intros Ht Hi. unfold operations_preserve.
  split; [left; split; reflexivity|].
  split; [intros; apply value_construct_settled; assumption|].
  split; [intros; apply copy_construct_settled; assumption|].
  split; [intros; apply move_construct_settled; assumption|].
  split; [intros; apply assign_variant_settled; assumption|].
  split; [intros; apply assign_variant_settled; assumption|].
  split; [intros T arg this HT Hs; apply emplace_keeps_settled; assumption|].
  split; [intros T arg this HT Hs; apply emplace_keeps_settled; assumption|].
  split; intros; apply reset_leaves_settled; assumption.
Qed.

Lemma operations_preserve_equiv (I I' source : variant -> Prop) :
  (forall var, I var -> I' var) -> (forall var, I' var -> I var) ->
  operations_preserve I I source -> operations_preserve I' I' source.
Proof.
  intros Hto Hfrom (H0 & H1 & H2 & H3 & H4 & H5 & H6 & H7 & H9 & H10).
  assert (forall s, both I s -> both I' s) as Hboth
    by (intros [? ?] [? ?]; split; auto).
  assert (forall X (s : variant * X), of_variant I s -> of_variant I' s) as Hof
    by (intros X [? ?]; unfold of_variant; auto).
  unfold operations_preserve.
  split; [auto|].
  split; [intros w T arg HT; eapply ends_in_mono; [apply Hof| |apply H1, HT]; auto|].
  split; [intros w o Ho Hs; eapply ends_in_mono; [apply Hboth|apply Hof|apply H2; auto]|].
  split; [intros w o Ho Hs; eapply ends_in_mono; [apply Hboth|apply Hof|apply H3; auto]|].
  split; [intros o t Ho Hs; eapply ends_in_mono; [apply Hboth|apply Hboth|apply H4; auto]|].
  split; [intros o t Ho Hs; eapply ends_in_mono; [apply Hboth|apply Hboth|apply H5; auto]|].
  split; [intros T arg t HT Hs; eapply ends_in_mono; [apply Hof|apply Hof|apply H6; auto]|].
  split; [intros T arg t HT Hs; eapply ends_in_mono; [apply Hof|apply Hof|apply H7; auto]|].
  split; intros var Hv; (eapply ends_in_mono; [apply Hto|apply Hto|]); auto.
Qed.

(** Over a non-trivial set of distinct alternatives whose generic
    constructors can be instantiated, the operations that have an instance
    (default construction, construction from a value, copy and move
    construction from a source that holds a value, copy, move and value
    assignment, emplace, reset to nullvar, destruction) keep the
    invariant, whether they return or throw. *)
Lemma instantiated_operations_preserve_invariant :
  NoDup Types -> trivial = false -> construct_instantiates = true ->
  operations_preserve invariant invariant (fun other => has_value other = true).
Proof.
  intros Hnd Ht Hi. apply (operations_preserve_equiv settled).
  - apply settled_invariant.
  - intros var Hv. exact (invariant_settled var Hnd Hv).
  - apply operations_preserve_settled; assumption.
Qed.

(** ** The fast path against the generic path, over an all-trivial set *)


Lemma same_value_fields var var' :
  storage_ var = storage_ var' -> which_ var = which_ var' -> same_value var var'.
Proof.
  intros Hs Hw. unfold same_value, held_value, has_value, which.
  rewrite Hs, Hw. split; reflexivity.
Qed.


(** From a source that holds a value, the visiting assignment leaves what
    the bytewise assignment leaves. *)
Lemma fast_path_assign_holding moved other this T x :
  trivial = true -> (forall T, T ∈ Types -> bytewise T) -> holds other T x ->
  assign_visit moved other this = Returns (other, construct_trivial other this).
Proof.
  intros Ht Hb Hh. rewrite (assign_visit_holding _ _ _ _ _ Hh).
  unfold emplace. rewrite (index_valid _ (holds_elem _ _ _ Hh)), Ht. simpl.
  rewrite emplace_member_spec.
  destruct (Hb T (holds_elem _ _ _ Hh)) as (Hc & Hm & _).
  assert (construct_from T (forwarded moved x) = (Some x, forwarded moved x)) as ->.
  { destruct moved; simpl; [rewrite Hm|rewrite Hc]; reflexivity. }
  simpl.
  assert (referenced x (forwarded moved x) = x) as -> by (destruct moved; reflexivity).
  destruct Hh as (_ & Hw & Hs). rewrite (with_storage_same _ _ _ Hs).
  unfold construct_trivial, with_which. simpl. rewrite Hs, Hw. reflexivity.
Qed.

(** From an empty source the two assignments part: the bytewise one copies
    the tag [N], the visiting one does nothing. *)
Lemma assign_paths_on_empty moved other this :
  is_empty other ->
  assign_visit moved other this = Returns (other, this)
  /\ is_empty (construct_trivial other this).
Proof.
  intros He. unfold assign_visit. rewrite (visit_empty _ _ _ He).
  split; [reflexivity|exact He].
Qed.

End Theory.

(** * Further properties of the code *)

Section FurtherTheory.
Context {ty : Type} `{EqDecision ty} {V A : Type}.
Context {alts : @alternative_set ty V A}.
Implicit Types (T U : ty) (x y : V) (arg : @args V A).
Implicit Types (var other this a b : @variant ty V).

(** ** contains and get *)

Lemma contains_elem T var : contains T var = true -> T ∈ Types.
Proof.
  unfold contains, has_value, which. intros Hc.
  apply andb_true_iff in Hc as [Hv Hw].
  apply negb_true_iff, Nat.eqb_neq in Hv. apply Nat.eqb_eq in Hw.
  apply get_index_present. pose proof (get_index_le T Types).
  unfold invalid_index in *. lia.
Qed.

Lemma contains_holds var T x : holds var T x -> contains T var = true.
Proof.
  intros Hh. unfold contains. rewrite (holds_has_value _ _ _ Hh).
  destruct Hh as (_ & Hw & _). unfold which. rewrite Hw, Nat.eqb_refl. reflexivity.
Qed.

(** On a well-formed variant [contains<T>] is exactly the condition under
    which [get<T>] has a result. *)
Theorem contains_iff_get T var :
  well_formed var ->
  contains T var = true <-> exists x, get T var = Some x.
Proof.
  intros Hwf. split.
  - intros Hc. pose proof (contains_elem _ _ Hc) as HT.
    destruct Hwf as [He|(U & y & Hh)].
    + unfold contains in Hc. rewrite (empty_has_value _ He) in Hc. discriminate.
    + assert (T = U) as ->.
      { unfold contains in Hc. apply andb_true_iff in Hc as [_ Hw].
        apply Nat.eqb_eq in Hw. destruct Hh as (HU & Hwu & _).
        unfold which in Hw. rewrite Hwu in Hw.
        symmetry. exact (get_index_inj _ _ HU Hw HT). }
      exists y. exact (holds_get _ _ _ Hh).
  - intros [x Hg]. unfold get in Hg. unfold contains.
    destruct (has_value var && (which var =? get_index T Types));
      [reflexivity|discriminate].
Qed.

(** A type that is not an alternative is never contained, not even in an
    empty variant, whose tag equals the index [N] of such a type; and a
    variant contains at most one alternative. *)
Theorem contains_exclusive T U var :
  (T ∉ Types -> contains T var = false)
  /\ (contains T var = true -> contains U var = true -> T = U).
Proof.
  split.
  - intros Hn. unfold contains, has_value, which.
    rewrite (get_index_absent _ _ Hn). fold invalid_index.
    destruct (which_ var =? invalid_index); reflexivity.
  - intros HT HU.
    pose proof (contains_elem _ _ HT) as HTin.
    pose proof (contains_elem _ _ HU) as HUin.
    unfold contains in HT, HU.
    apply andb_true_iff in HT as [_ HT]. apply andb_true_iff in HU as [_ HU].
    apply Nat.eqb_eq in HT, HU. rewrite HT in HU.
    exact (get_index_inj _ _ HTin HU HUin).
Qed.

(** ** What emplace establishes *)

Lemma emplace_member_returns T arg var var' arg' :
  emplace_member T arg var = Returns (var', arg') ->
  exists x, storage_ var' = Some (T, x) /\ which_ var' = which_ var
            /\ destroyed_ var' = destroyed_ var.
Proof.
  rewrite emplace_member_spec.
  destruct (construct_from T arg) as [[x|] a']; [|discriminate].
  intros [= <- <-]. exists x. repeat split.
Qed.

Lemma emplace_returns_holds T arg var var' arg' :
  emplace T arg var = Returns (var', arg') -> exists x, holds var' T x.
Proof.
  unfold emplace.
  destruct (get_index T Types =? invalid_index) eqn:Hix; [discriminate|].
  assert (T ∈ Types) as HT.
  { apply Nat.eqb_neq in Hix. apply get_index_present.
    pose proof (get_index_le T Types). unfold invalid_index in Hix. lia. }
  assert (forall v1 r1 (o : outcome (variant * args)),
            o = Returns (v1, r1) -> (exists x, storage_ v1 = Some (T, x)) ->
            and_then id o
              (fun '(v, r) => Returns (with_which (get_index T Types) v, r))
            = Returns (var', arg') -> exists x, holds var' T x) as Hfin.
  { intros v1 r1 o -> [x Hs]. simpl. intros [= <- <-]. exists x.
    split; [exact HT|]. split; [reflexivity|exact Hs]. }
  destruct (trivial || negb (has_value var)).
  { destruct (emplace_member T arg var) as [[v1 r1]|[v1 r1]|] eqn:Hm;
      [|discriminate..].
    apply (Hfin v1 r1 _ eq_refl).
    destruct (emplace_member_returns _ _ _ _ _ Hm) as (x & Hs & _). eauto. }
  destruct (get_index T Types =? which_ var).
  { unfold assign. destruct (get T var) as [held|]; [|discriminate].
    destruct (assignable T arg).
    - destruct (assign_arg T held arg) as [[h r1] [|]]; [|discriminate].
      apply (Hfin _ _ _ eq_refl). simpl. eauto.
    - destruct (construct_from T arg) as [[tmp|] r1]; [|discriminate].
      destruct (move_assign (ops T) held tmp) as [[h s] [|]]; [|discriminate].
      apply (Hfin _ _ _ eq_refl). simpl. eauto. }
  unfold emplace_impl.
  destruct (negb (noexcept_construct T arg) && is_nothrow_move_constructible (ops T)).
  - destruct (construct_from T arg) as [[tmp|] r1]; [|discriminate].
    destruct (assign_nullvar var) as [v0|v0|]; simpl; [|discriminate..].
    destruct (emplace_member T (by_move tmp) v0) as [[v1 r2]|[v1 r2]|] eqn:Hm;
      [|discriminate..].
    apply (Hfin v1 r1 _ eq_refl).
    destruct (emplace_member_returns _ _ _ _ _ Hm) as (x & Hs & _). eauto.
  - destruct (assign_nullvar var) as [v0|v0|]; simpl; [|discriminate..].
    destruct (emplace_member T arg v0) as [[v1 r1]|[v1 r1]|] eqn:Hm;
      [|discriminate..].
    apply (Hfin v1 r1 _ eq_refl).
    destruct (emplace_member_returns _ _ _ _ _ Hm) as (x & Hs & _). eauto.
Qed.

(** Whatever state the variant was in: when [emplace<T>] returns, the
    variant contains [T], [get<T>] reads the new object, and the tag is the
    first position of [T] in the list. *)
Theorem emplace_then_contains T arg var var' arg' :
  emplace T arg var = Returns (var', arg') ->
  contains T var' = true
  /\ which var' = get_index T Types
  /\ exists x, get T var' = Some x /\ held_value var' = Some (T, x).
Proof.
  intros He. destruct (emplace_returns_holds _ _ _ _ _ He) as (x & Hh).
  split; [exact (contains_holds _ _ _ Hh)|].
  split; [destruct Hh as (_ & ? & _); assumption|].
  exists x. split; [exact (holds_get _ _ _ Hh)|exact (held_value_holds _ _ _ Hh)].
Qed.


(** ** Reset *)

(** Reset of a well-formed variant returns; afterwards no alternative is
    contained and [get] has no result for any type.  Over a non-trivial set
    the held object has been destroyed, exactly once. *)
Theorem reset_clears var :
  well_formed var ->
  exists var',
    assign_nullvar var = Returns var'
    /\ has_value var' = false
    /\ (forall T, contains T var' = false /\ get T var' = None)
    /\ (trivial = false -> forall T x, holds var T x ->
          storage_ var' = None /\ destroyed_ var' = (T, x) :: destroyed_ var).
Proof.
  intros Hwf.
  assert (forall v, which_ v = invalid_index ->
            has_value v = false
            /\ forall T, contains T v = false /\ get T v = None) as Hclear.
  { intros v Hv. assert (has_value v = false) as Hf by (apply empty_has_value, Hv).
    split; [exact Hf|]. intros T. unfold contains, get. rewrite Hf. split; reflexivity. }
  destruct trivial eqn:Ht.
  - exists (with_which invalid_index var).
    split; [apply reset_trivial, Ht|].
    destruct (Hclear (with_which invalid_index var) eq_refl) as [H1 H2].
    split; [exact H1|]. split; [exact H2|discriminate].
  - destruct Hwf as [He|(U & y & Hh)].
    + exists var. split; [apply reset_empty, He|].
      destruct (Hclear var He) as [H1 H2].
      split; [exact H1|]. split; [exact H2|].
      intros _ T x Hx. exfalso. exact (holds_not_empty _ _ _ Hx He).
    + eexists. split; [apply (reset_holds _ _ _ Ht Hh)|].
      destruct (Hclear {| storage_ := None; which_ := invalid_index;
                          destroyed_ := (U, y) :: destroyed_ var |} eq_refl)
        as [H1 H2].
      split; [exact H1|]. split; [exact H2|].
      intros _ T x Hx. destruct (holds_inj _ _ _ _ _ Hh Hx) as [-> ->].
      split; reflexivity.
Qed.

(** ** Replacing the held alternative *)

(** [emplace<T>] on a non-trivial variant that holds another alternative
    [U]: when it returns, [T] is held and the old object has been destroyed
    once; when it throws, either nothing has happened at all, or the old
    object has been destroyed once and the variant is empty.  The old
    object is never destroyed twice and never left beside a new one. *)
Theorem emplace_other_alternative T arg var U y :
  trivial = false -> holds var U y -> T ∈ Types -> T <> U ->
  ends_in
    (fun s => (exists x, holds s.1 T x)
              /\ destroyed_ s.1 = (U, y) :: destroyed_ var)
    (fun s => s.1 = var
              \/ (is_empty s.1 /\ storage_ s.1 = None
                  /\ destroyed_ s.1 = (U, y) :: destroyed_ var))
    (emplace T arg var).
Proof.
  intros Ht Hh HT Hne. unfold emplace.
  rewrite (index_valid _ HT), Ht, (holds_has_value _ _ _ Hh). simpl.
  assert ((get_index T Types =? which_ var) = false) as ->.
  { apply Nat.eqb_neq. intros Heq. apply Hne.
    destruct Hh as (HU & Hw & _). rewrite Hw in Heq.
    exact (get_index_inj _ _ HT Heq HU). }
  unfold emplace_impl.
  destruct (negb (noexcept_construct T arg) && is_nothrow_move_constructible (ops T)).
  - destruct (construct_from T arg) as [[tmp|] r1]; simpl; [|left; reflexivity].
    rewrite (reset_holds _ _ _ Ht Hh). simpl. rewrite emplace_member_spec. simpl.
    destruct (move_ctor (ops T) tmp) as [[x'|] s]; simpl.
    + split; [|reflexivity]. exists x'. apply holds_intro; [exact HT|reflexivity].
    + right. repeat split.
  - rewrite (reset_holds _ _ _ Ht Hh). simpl. rewrite emplace_member_spec.
    destruct (construct_from T arg) as [[x'|] r1]; simpl.
    + split; [|reflexivity]. exists x'. apply holds_intro; [exact HT|reflexivity].
    + right. repeat split.
Qed.

(** ** Comparison with a bare value *)

(** [a == b] for a value [b] of the alternative [T] is the same as [a ==]
    a variant that holds [b]. *)
Theorem eq_value_as_variant T a y d :
  well_formed a -> T ∈ Types ->
  variant_eq_value T a y
  = variant_eq a {| storage_ := Some (T, y); which_ := get_index T Types;
                    destroyed_ := d |}.
Proof.
  intros Hwf HT.
  assert (holds {| storage_ := Some (T, y); which_ := get_index T Types;
                   destroyed_ := d |} T y) as Hb
    by (apply holds_intro; [exact HT|reflexivity]).
  unfold variant_eq_value. rewrite (index_valid _ HT).
  destruct Hwf as [He|(U & x & Ha)].
  - assert (which a <> get_index T Types) as Hne.
    { unfold which. rewrite He. intros Heq. symmetry in Heq.
      apply Nat.eqb_eq in Heq. rewrite (index_valid _ HT) in Heq. discriminate. }
    rewrite (proj2 (Nat.eqb_neq _ _) Hne).
    symmetry. apply eq_different_index. exact Hne.
  - destruct (decide (U = T)) as [->|Hne].
    + rewrite (eq_same_alternative _ _ _ _ _ Ha Hb), (holds_get _ _ _ Ha).
      destruct Ha as (_ & Hw & _). unfold which. rewrite Hw, Nat.eqb_refl.
      reflexivity.
    + assert (which a <> get_index T Types) as Hd.
      { intros Heq. apply Hne. destruct Ha as (HU & Hw & _).
        unfold which in Heq. rewrite Hw in Heq.
        exact (get_index_inj _ _ HU Heq HT). }
      rewrite (proj2 (Nat.eqb_neq _ _) Hd).
      symmetry. apply eq_different_index. exact Hd.
Qed.

(** ** Equality and hash together *)

(** [operator==] on well-formed variants is reflexive and symmetric as far
    as the alternatives' own [==] is. *)
Theorem variant_eq_refl_sym a b :
  well_formed a -> well_formed b ->
  ((forall T x, T ∈ Types -> equal (ops T) x x = true) ->
     variant_eq a a = Returns true)
  /\ ((forall T x y, T ∈ Types -> equal (ops T) x y = equal (ops T) y x) ->
        variant_eq a b = variant_eq b a).
Proof.
  intros Ha Hb. split.
  - intros Hrefl. destruct Ha as [He|(T & x & Hh)].
    + exact (eq_both_empty _ _ He He).
    + rewrite (eq_same_alternative _ _ _ _ _ Hh Hh), (Hrefl T x (holds_elem _ _ _ Hh)).
      reflexivity.
  - intros Hsym. destruct (decide (which a = which b)) as [Heq|Hne].
    + destruct Ha as [Ha|(T & x & Ha)], Hb as [Hb|(U & y & Hb)].
      * rewrite !eq_both_empty; auto.
      * exfalso. apply (holds_not_empty _ _ _ Hb).
        unfold is_empty, which in *. congruence.
      * exfalso. apply (holds_not_empty _ _ _ Ha).
        unfold is_empty, which in *. congruence.
      * pose proof (holds_same_index _ _ _ _ _ _ Ha Hb Heq) as <-.
        rewrite (eq_same_alternative _ _ _ _ _ Ha Hb),
          (eq_same_alternative _ _ _ _ _ Hb Ha), (Hsym T x y (holds_elem _ _ _ Ha)).
        reflexivity.
    + rewrite !eq_different_index; auto.
Qed.

Lemma hash_holds_or_empty var :
  (is_empty var -> variant_hash var = Returns 19937%N)
  /\ (forall T x, holds var T x -> variant_hash var = Returns (std_hash (ops T) x)).
Proof.
  split.
  - intros He. unfold variant_hash. rewrite (empty_has_value _ He). reflexivity.
  - intros T x Hh. unfold variant_hash.
    rewrite (holds_has_value _ _ _ Hh). simpl.
    rewrite (visit_holds _ _ _ _ _ Hh). reflexivity.
Qed.

(** Variants that compare equal hash equally, the empty ones to 19937,
    provided each alternative's [std::hash] agrees with its [==]. *)
Theorem equal_variants_hash_equal a b :
  (forall T x y, T ∈ Types -> equal (ops T) x y = true ->
     std_hash (ops T) x = std_hash (ops T) y) ->
  well_formed a -> well_formed b ->
  variant_eq a b = Returns true ->
  variant_hash a = variant_hash b.
Proof.
  intros Hh Ha Hb Heq.
  destruct (decide (which a = which b)) as [Hw|Hne];
    [|rewrite (eq_different_index _ _ Hne) in Heq; discriminate].
  destruct Ha as [Ha|(T & x & Ha)], Hb as [Hb|(U & y & Hb)].
  - rewrite (proj1 (hash_holds_or_empty a) Ha), (proj1 (hash_holds_or_empty b) Hb).
    reflexivity.
  - exfalso. apply (holds_not_empty _ _ _ Hb). unfold is_empty, which in *. congruence.
  - exfalso. apply (holds_not_empty _ _ _ Ha). unfold is_empty, which in *. congruence.
  - pose proof (holds_same_index _ _ _ _ _ _ Ha Hb Hw) as <-.
    rewrite (eq_same_alternative _ _ _ _ _ Ha Hb) in Heq. injection Heq as Heq.
    rewrite (proj2 (hash_holds_or_empty a) _ _ Ha),
      (proj2 (hash_holds_or_empty b) _ _ Hb).
    f_equal. exact (Hh T x y (holds_elem _ _ _ Ha) Heq).
Qed.

(** ** Copies and moves of whole variants *)

(** Where the copy constructor has an instance (the set is all trivial,
    or argument-dependent lookup on every alternative reaches the raw
    [emplace]), a copy of a variant that holds a value compares equal to
    its source and shows the same tag and object, when the alternative's
    copy constructor completes with an equal state and its [==] is
    reflexive on it.  Over any other set the constructor has no instance. *)
Theorem copy_compares_equal w other T x :
  trivial || construct_instantiates = true ->
  holds other T x ->
  copy_ctor (ops T) x = Some x -> equal (ops T) x x = true ->
  exists this,
    copy_construct w other = Returns (other, this)
    /\ same_value this other
    /\ variant_eq this other = Returns true
    /\ variant_hash this = variant_hash other.
Proof.
  intros Hi Hh Hc Hr.
  assert (forall this, holds this T x ->
            same_value this other
            /\ variant_eq this other = Returns true
            /\ variant_hash this = variant_hash other) as Hfin.
  { intros this Ht. split; [exact (same_value_holds _ _ _ _ Ht Hh)|].
    split; [rewrite (eq_same_alternative _ _ _ _ _ Ht Hh), Hr; reflexivity|].
    rewrite (proj2 (hash_holds_or_empty this) _ _ Ht),
      (proj2 (hash_holds_or_empty other) _ _ Hh). reflexivity. }
  destruct trivial eqn:Htriv.
  - exists (construct_trivial other (uninitialized w)).
    split; [unfold copy_construct, construct; rewrite Htriv; reflexivity|].
    apply Hfin. destruct Hh as (HT & Hw & Hs).
    split; [exact HT|]. split; simpl; assumption.
  - simpl in Hi. rewrite (copy_construct_holding _ _ _ _ Htriv Hi Hh), Hc.
    eexists. split; [reflexivity|]. apply Hfin.
    destruct Hh as (HT & Hw & _). apply holds_intro; assumption.
Qed.

(** Where the move constructor has an instance (the set is all trivial,
    or argument-dependent lookup on every alternative reaches the raw
    [emplace]), move construction from a variant that holds [T] leaves the
    source holding an object of type [T] (the moved-from one), whether it
    returns or throws; when it returns, the new variant holds [T] as well.
    Over any other set the constructor has no instance. *)
Theorem move_construct_keeps_source w other T x :
  trivial || construct_instantiates = true ->
  holds other T x ->
  ends_in
    (fun s => (exists s0, holds s.1 T s0) /\ exists x', holds s.2 T x')
    (fun s => exists s0, holds s.1 T s0)
    (move_construct w other).
Proof.
  intros Hi Hh. destruct trivial eqn:Htriv.
  - unfold move_construct, construct. rewrite Htriv. simpl.
    split; [exists x; exact Hh|]. exists x.
    destruct Hh as (HT & Hw & Hs). split; [exact HT|]. split; simpl; assumption.
  - simpl in Hi. rewrite (move_construct_holding _ _ _ _ Htriv Hi Hh).
    destruct (move_ctor (ops T) x) as [[x'|] s]; simpl.
    + split; [exists s; exact (holds_with_storage _ _ _ s Hh)|].
      exists x'. destruct Hh as (HT & Hw & _). apply holds_intro; assumption.
    + exists s. exact (holds_with_storage _ _ _ s Hh).
Qed.

(** Copy or move assignment from a source that holds [T], into a target
    in any state: when the assignment returns, the target holds [T] with
    the tag of the source, and the source still holds a [T]. *)
Theorem assign_takes_alternative moved other this T x other' this' :
  holds other T x ->
  assign_variant moved other this = Returns (other', this') ->
  which this' = which other
  /\ (exists x', holds this' T x')
  /\ exists s, holds other' T s.
Proof.
  intros Hh. unfold assign_variant. destruct trivial eqn:Htriv.
  - intros [= <- <-]. split; [reflexivity|].
    split; [|exists x; exact Hh]. exists x.
    destruct Hh as (HT & Hw & Hs). split; [exact HT|]. split; simpl; assumption.
  - rewrite (assign_visit_holding _ _ _ _ _ Hh).
    destruct (emplace T (forwarded moved x) this) as [[t r]|[t r]|] eqn:He;
      [|discriminate..].
    intros [= <- <-].
    destruct (emplace_returns_holds _ _ _ _ _ He) as (x' & Ht).
    split; [|split].
    + unfold which. destruct Hh as (_ & Hw & _), Ht as (_ & Hw' & _). congruence.
    + exists x'. exact Ht.
    + eexists. exact (holds_with_storage _ _ _ _ Hh).
Qed.

(** ** try_get *)

Lemma contains_iff_get_aux T var :
  well_formed var -> contains T var = true <-> exists x, holds var T x.
Proof.
  intros Hwf. split; [|intros [x Hh]; exact (contains_holds _ _ _ Hh)].
  intros Hc. pose proof (contains_elem _ _ Hc) as HT.
  destruct Hwf as [He|(U & y & Hh)].
  - unfold contains in Hc. rewrite (empty_has_value _ He) in Hc. discriminate.
  - assert (T = U) as ->; [|exists y; exact Hh].
    unfold contains in Hc. apply andb_true_iff in Hc as [_ Hw].
    apply Nat.eqb_eq in Hw. destruct Hh as (HU & Hwu & _).
    unfold which in Hw. rewrite Hwu in Hw.
    symmetry. exact (get_index_inj _ _ HU Hw HT).
Qed.

(** [try_get<T>] on a well-formed variant never trips the assertion of
    [get]: it copies the held object when [T] is held and builds [T] from
    the fallback in every other case, also for an empty variant and for a
    type that is not an alternative at all. *)
Theorem try_get_spec T var val :
  well_formed var ->
  try_get T var val <> Fault
  /\ (forall x, holds var T x ->
        try_get T var val =
          match copy_ctor (ops T) x with
          | Some r => Returns (Some r, val)
          | None => Throws (None, val)
          end)
  /\ ((is_empty var \/ T ∉ Types \/ exists U y, holds var U y /\ U <> T) ->
        try_get T var val =
          match construct_from T val with
          | (Some r, val') => Returns (Some r, val')
          | (None, val') => Throws (None, val')
          end).
Proof.
  intros Hwf.
  assert (forall x, holds var T x ->
            try_get T var val =
              match copy_ctor (ops T) x with
              | Some r => Returns (Some r, val)
              | None => Throws (None, val)
              end) as Hheld.
  { intros x Hh. unfold try_get.
    rewrite (contains_holds _ _ _ Hh), (holds_get _ _ _ Hh). reflexivity. }
  assert (contains T var = false ->
            try_get T var val =
              match construct_from T val with
              | (Some r, val') => Returns (Some r, val')
              | (None, val') => Throws (None, val')
              end) as Hother.
  { intros Hc. unfold try_get. rewrite Hc. reflexivity. }
  split; [|split; [exact Hheld|]].
  - destruct (contains T var) eqn:Hc.
    + destruct (proj1 (contains_iff_get_aux T var Hwf) Hc) as (x & Hh).
      rewrite (Hheld x Hh). destruct (copy_ctor (ops T) x); discriminate.
    + rewrite (Hother eq_refl).
      destruct (construct_from T val) as [[r|] v']; discriminate.
  - intros Hcase. apply Hother.
    destruct (contains T var) eqn:Hc; [|reflexivity]. exfalso.
    destruct (proj1 (contains_iff_get_aux T var Hwf) Hc) as (x & Hh).
    destruct Hcase as [He|[Hn|(U & y & Hu & Hne)]].
    + exact (holds_not_empty _ _ _ Hh He).
    + exact (Hn (holds_elem _ _ _ Hh)).
    + destruct (holds_inj _ _ _ _ _ Hh Hu) as [Heq _]. congruence.
Qed.

(** ** The trait queries *)

Lemma select_types_all_true (trait : @type_ops V A -> bool) :
  bool_decide (select_types trait = all_true_types)
  = forallb (fun T => trait (ops T)) Types.
Proof.
  unfold select_types, all_true_types.
  induction Types as [|T Ts IH]; [reflexivity|].
  cbn [map forallb]. rewrite <- IH.
  destruct (trait (ops T)); cbn [andb].
  - apply bool_decide_ext. split; [intros [= ->]; reflexivity|intros ->; reflexivity].
  - apply bool_decide_eq_false_2. intros [=].
Qed.

(** The comparison of type lists [trivial_types] and [nothrow_move_types]
    make is true exactly when every alternative has the trait; it is the
    fold the operations of the class branch on. *)
Theorem trait_queries_spec :
  trivial_types = trivial
  /\ nothrow_move_types = nothrow_move
  /\ (trivial_types = true <-> forall T, T ∈ Types -> is_trivial (ops T) = true)
  /\ (nothrow_move_types = true <->
        forall T, T ∈ Types -> is_nothrow_move_constructible (ops T) = true).
Proof.
  unfold trivial_types, nothrow_move_types, trivial, nothrow_move.
  rewrite !select_types_all_true.
  split; [reflexivity|]. split; [reflexivity|].
  split; rewrite forallb_forall; split; intros Hall T HT; apply Hall;
    apply list_elem_of_In; exact HT.
Qed.

(** ** Comparison with nullvar *)

(** [a == nullvar] is [a == variant()], for a variant in any state. *)
Theorem eq_nullvar_as_variant a :
  variant_eq a null_variant = Returns (variant_eq_nullvar a).
Proof.
  - unfold variant_eq, variant_eq_nullvar.
    assert (has_value null_variant = false) as -> by (apply empty_has_value; reflexivity).
    destruct (has_value a) eqn:Ha; simpl; [|reflexivity].
    unfold has_value in Ha. apply negb_true_iff in Ha.
    unfold which. simpl. rewrite Ha. reflexivity.
Qed.

End FurtherTheory.

(** ** The size of the storage *)

Lemma max_of_cons t u us :
  max_of t (u :: us) = if t <? max_of u us then max_of u us else t.
Proof. destruct us; reflexivity. Qed.

Lemma max_of_bounds t ts :
  (forall u, u ∈ t :: ts -> u <= max_of t ts) /\ max_of t ts ∈ t :: ts.
Proof.
  revert t. induction ts as [|u us IH]; intros t.
  - simpl. split; [|apply list_elem_of_here].
    intros v Hv. apply list_elem_of_singleton in Hv. lia.
  - rewrite max_of_cons. destruct (IH u) as [Hle Hin].
    destruct (t <? max_of u us) eqn:Hlt.
    + apply Nat.ltb_lt in Hlt. split; [|apply list_elem_of_further, Hin].
      intros v Hv. apply elem_of_cons in Hv as [->|Hv]; [lia|apply Hle, Hv].
    + apply Nat.ltb_ge in Hlt. split; [|apply list_elem_of_here].
      intros v Hv. apply elem_of_cons in Hv as [->|Hv]; [lia|].
      specialize (Hle v Hv). lia.
Qed.

(** [detail::max] returns one of its arguments, and none of them is
    larger. *)
Theorem max_of_is_maximum t ts :
  max_of t ts ∈ t :: ts /\ forall u, u ∈ t :: ts -> u <= max_of t ts.
Proof. destruct (max_of_bounds t ts) as [Hle Hin]. split; assumption. Qed.

(** A storage with the size and alignment [aligned_union] computes for
    [Types...] (or more) lets the raw [emplace<T>] take part in overload
    resolution for every alternative [T]; only the empty pack has no size. *)
Theorem storage_fits_every_alternative {ty : Type} (sizeof alignof : ty -> nat)
    (Ts : list ty) (T : ty) (size alignment : nat) :
  T ∈ Ts ->
  (exists sv av,
     size_value sizeof Ts = Some sv /\ alignment_value alignof Ts = Some av
     /\ (sv <= size -> av <= alignment ->
         emplace_enabled sizeof alignof T size alignment = true))
  /\ (size_value sizeof [] = None).
Proof.
  intros HT. split; [|reflexivity].
  destruct Ts as [|H0 Tl]; [inversion HT|].
  eexists _, _. split; [reflexivity|]. split; [reflexivity|].
  intros Hs Ha. unfold emplace_enabled.
  destruct (max_of_bounds (sizeof H0) (map sizeof Tl)) as [Hls _].
  destruct (max_of_bounds (alignof H0) (map alignof Tl)) as [Hla _].
  assert (sizeof T ∈ sizeof H0 :: map sizeof Tl) as Hin1.
  { change (sizeof T ∈ map sizeof (H0 :: Tl)). apply list_elem_of_fmap_2, HT. }
  assert (alignof T ∈ alignof H0 :: map alignof Tl) as Hin2.
  { change (alignof T ∈ map alignof (H0 :: Tl)). apply list_elem_of_fmap_2, HT. }
  specialize (Hls _ Hin1). specialize (Hla _ Hin2).
  apply andb_true_iff. split; apply Nat.leb_le; lia.
Qed.

(** * optional *)

Section OptionalTheory.
Context {ty : Type} `{EqDecision ty} {V A : Type}.
Context {alts : @alternative_set ty V A}.
Context (T : ty).
Implicit Types (opt other this p q : @Optional.optional ty V).
Implicit Types (x y : V) (arg : @args V A).

Lemma engaged_has_value opt x :
  Optional.engaged T opt x -> Optional.has_value opt = true.
Proof. intros [Hn _]. unfold Optional.has_value. rewrite Hn. reflexivity. Qed.

Lemma engaged_deref opt x :
  Optional.engaged T opt x -> Optional.deref T opt = Some x.
Proof.
  intros [Hn Hs]. unfold Optional.deref. rewrite Hn, Hs. apply get_storage_same.
Qed.

Lemma disengaged_has_value opt :
  Optional.disengaged opt -> Optional.has_value opt = false.
Proof. intros [Hn _]. unfold Optional.has_value. rewrite Hn. reflexivity. Qed.

Lemma engaged_with_storage opt x s :
  Optional.engaged T opt x ->
  Optional.engaged T (Optional.with_storage (Some (T, s)) opt) s.
Proof. intros [Hn _]. split; [exact Hn|reflexivity]. Qed.

Lemma optional_emplace_member_spec arg opt :
  Optional.emplace_member T arg opt =
    match construct_from T arg with
    | (Some x, arg') => Returns (Optional.with_storage (Some (T, x)) opt, arg')
    | (None, arg') => Throws (Optional.with_storage None opt, arg')
    end.
Proof.
  unfold Optional.emplace_member, emplace_storage.
  destruct (construct_from T arg) as [[x|] arg']; reflexivity.
Qed.

Lemma optional_reset_engaged opt x :
  Optional.engaged T opt x ->
  Optional.assign_nullopt T opt =
    Returns {| Optional.storage_ := None; Optional.null_ := true;
               Optional.destroyed_ := x :: Optional.destroyed_ opt |}.
Proof.
  intros He. unfold Optional.assign_nullopt.
  rewrite (engaged_has_value _ _ He), (engaged_deref _ _ He). reflexivity.
Qed.

Lemma optional_reset_disengaged opt :
  Optional.disengaged opt -> Optional.assign_nullopt T opt = Returns opt.
Proof.
  intros Hd. unfold Optional.assign_nullopt.
  rewrite (disengaged_has_value _ Hd). destruct Hd as [Hn _].
  destruct opt as [s n d]. simpl in *. subst n. reflexivity.
Qed.

(** [emplace] on an engaged optional is the [assign] branch. *)
Lemma optional_emplace_engaged arg opt held :
  Optional.engaged T opt held ->
  Optional.emplace T arg opt =
    if assignable T arg then
      let '(h, arg', ok) := assign_arg T held arg in
      (if ok then Returns else Throws)
        (Optional.with_storage (Some (T, h)) opt, arg')
    else
      match construct_from T arg with
      | (None, arg') => Throws (opt, arg')
      | (Some tmp, arg') =>
          let '(h, _, ok) := move_assign (ops T) held tmp in
          (if ok then Returns else Throws)
            (Optional.with_storage (Some (T, h)) opt, arg')
      end.
Proof.
  intros He. unfold Optional.emplace, Optional.assign.
  rewrite (engaged_has_value _ _ He), (engaged_deref _ _ He).
  assert (forall o : @Optional.optional ty V,
            Optional.null_ o = false -> Optional.with_null false o = o) as Hsame.
  { intros [s n d]. simpl. intros ->. reflexivity. }
  assert (forall h, Optional.with_null false (Optional.with_storage (Some (T, h)) opt)
                    = Optional.with_storage (Some (T, h)) opt) as Hs
    by (intros h; apply Hsame; destruct He as [Hn _]; exact Hn).
  destruct (assignable T arg).
  - destruct (assign_arg T held arg) as [[h arg'] [|]]; simpl; rewrite ?Hs; reflexivity.
  - destruct (construct_from T arg) as [[tmp|] arg']; simpl; [|reflexivity].
    destruct (move_assign (ops T) held tmp) as [[h s] [|]]; simpl; rewrite ?Hs; reflexivity.
Qed.

Lemma optional_emplace_disengaged arg opt :
  Optional.disengaged opt ->
  Optional.emplace T arg opt =
    match construct_from T arg with
    | (Some x, arg') =>
        Returns ({| Optional.storage_ := Some (T, x); Optional.null_ := false;
                    Optional.destroyed_ := Optional.destroyed_ opt |}, arg')
    | (None, arg') => Throws (opt, arg')
    end.
Proof.
  intros Hd. unfold Optional.emplace.
  rewrite (disengaged_has_value _ Hd), optional_emplace_member_spec.
  destruct (construct_from T arg) as [[x|] arg']; simpl; [reflexivity|].
  destruct Hd as [Hn Hs]. destruct opt as [s n d]. simpl in *. subst. reflexivity.
Qed.

Lemma optional_emplace_engaged_leaves arg opt held :
  Optional.engaged T opt held ->
  leaves (fun s => (exists x, Optional.engaged T s.1 x)
                   /\ Optional.destroyed_ s.1 = Optional.destroyed_ opt)
    (Optional.emplace T arg opt).
Proof.
  intros He. rewrite (optional_emplace_engaged _ _ _ He).
  assert (forall h, (exists x, Optional.engaged T
                       (Optional.with_storage (Some (T, h)) opt) x)
                    /\ Optional.destroyed_ (Optional.with_storage (Some (T, h)) opt)
                       = Optional.destroyed_ opt) as Hup.
  { intros h. split; [|reflexivity]. exists h.
    exact (engaged_with_storage _ _ h He). }
  destruct (assignable T arg).
  - destruct (assign_arg T held arg) as [[h arg'] [|]]; simpl; apply Hup.
  - destruct (construct_from T arg) as [[tmp|] arg']; simpl.
    + destruct (move_assign (ops T) held tmp) as [[h s] [|]]; simpl; apply Hup.
    + split; [exists held; exact He|reflexivity].
Qed.

(** [emplace] on a consistent optional: when it returns the optional is
    engaged; on an engaged optional no destructor runs, whether the call
    returns or throws, and the optional stays engaged; on a null optional
    a throwing constructor leaves it null and untouched. *)
Theorem optional_emplace_spec arg opt :
  Optional.consistent T opt ->
  ends_in (fun s => exists x, Optional.engaged T s.1 x) (fun _ => True)
    (Optional.emplace T arg opt)
  /\ (forall held, Optional.engaged T opt held ->
        leaves (fun s => (exists x, Optional.engaged T s.1 x)
                         /\ Optional.destroyed_ s.1 = Optional.destroyed_ opt)
          (Optional.emplace T arg opt))
  /\ (Optional.disengaged opt ->
        ends_in (fun _ => True) (fun s => s.1 = opt) (Optional.emplace T arg opt)).
Proof.
  intros Hc.
  assert (forall held, Optional.engaged T opt held ->
            leaves (fun s => (exists x, Optional.engaged T s.1 x)
                             /\ Optional.destroyed_ s.1 = Optional.destroyed_ opt)
              (Optional.emplace T arg opt)) as Heng
    by (intros held He; exact (optional_emplace_engaged_leaves arg opt held He)).
  split; [|split; [exact Heng|]].
  - destruct Hc as [Hd|[held He]].
    + rewrite (optional_emplace_disengaged _ _ Hd).
      destruct (construct_from T arg) as [[x|] arg']; simpl; [|exact I].
      exists x. split; reflexivity.
    + specialize (Heng held He).
      destruct (Optional.emplace T arg opt) as [s|s|]; simpl in *;
        [exact (proj1 Heng)|exact I|exact Heng].
  - intros Hd. rewrite (optional_emplace_disengaged _ _ Hd).
    destruct (construct_from T arg) as [[x|] arg']; simpl; [exact I|reflexivity].
Qed.

(** Copy and move assignment dereference their source first: from a null
    optional the assertion of [operator*] fails, whatever the target; from
    an engaged one the target is engaged when the assignment returns, and
    the source stays engaged on every way out. *)
Theorem optional_assign_spec moved other this :
  Optional.consistent T this ->
  (Optional.null_ other = true ->
     Optional.assign_optional T moved other this = Fault)
  /\ (forall x, Optional.engaged T other x ->
        ends_in
          (fun s => (exists s0, Optional.engaged T s.1 s0)
                    /\ exists x', Optional.engaged T s.2 x')
          (fun s => (exists s0, Optional.engaged T s.1 s0)
                    /\ Optional.consistent T s.2)
          (Optional.assign_optional T moved other this)).
Proof.
  intros Hc. split.
  - intros Hn. unfold Optional.assign_optional, Optional.deref. rewrite Hn. reflexivity.
  - intros x He. unfold Optional.assign_optional. rewrite (engaged_deref _ _ He).
    assert (forall s, exists s0, Optional.engaged T
              (Optional.with_storage (Some (T, s)) other) s0) as Hsrc
      by (intros s; exists s; exact (engaged_with_storage _ _ s He)).
    destruct Hc as [Hd|[held Hh]].
    + rewrite (optional_emplace_disengaged _ _ Hd).
      destruct (construct_from T (forwarded moved x)) as [[x'|] arg']; simpl.
      * split; [apply Hsrc|]. exists x'. split; reflexivity.
      * split; [apply Hsrc|]. left. exact Hd.
    + pose proof (optional_emplace_engaged_leaves (forwarded moved x) this held Hh)
        as Hl.
      destruct (Optional.emplace T (forwarded moved x) this) as [[t r]|[t r]|];
        simpl in *; [| |exact Hl].
      * split; [apply Hsrc|exact (proj1 Hl)].
      * split; [apply Hsrc|]. right. exact (proj1 Hl).
Qed.

(** ** The states of an optional *)

Lemma consistent_disengaged_fresh (d : list V) :
  Optional.consistent T
    {| Optional.storage_ := None; Optional.null_ := true; Optional.destroyed_ := d |}.
Proof. left. split; reflexivity. Qed.

Lemma consistent_engaged opt x : Optional.engaged T opt x -> Optional.consistent T opt.
Proof. intros He. right. exists x. exact He. Qed.

Lemma optional_move_over_spec other this x :
  Optional.engaged T other x -> Optional.disengaged this ->
  Optional.move_over T other this =
    match move_ctor (ops T) x with
    | (Some x', s) =>
        Returns ({| Optional.storage_ := None; Optional.null_ := true;
                    Optional.destroyed_ := s :: Optional.destroyed_ other |},
                 {| Optional.storage_ := Some (T, x'); Optional.null_ := false;
                    Optional.destroyed_ := Optional.destroyed_ this |})
    | (None, s) => Throws (Optional.with_storage (Some (T, s)) other, this)
    end.
Proof.
  intros He Hd. unfold Optional.move_over.
  rewrite (engaged_deref _ _ He), optional_emplace_member_spec. simpl.
  destruct (move_ctor (ops T) x) as [[x'|] s]; simpl.
  - rewrite (optional_reset_engaged _ s); [reflexivity|].
    exact (engaged_with_storage _ _ s He).
  - destruct Hd as [Hn Hs]. destruct this as [st n d]. simpl in *. subst. reflexivity.
Qed.

Lemma optional_swap_engaged p q x y :
  Optional.engaged T p x -> Optional.engaged T q y ->
  Optional.swap T p q =
    let '(x', y', ok) := swap_values (ops T) x y in
    (if ok then Returns else Throws)
      (Optional.with_storage (Some (T, x')) p, Optional.with_storage (Some (T, y')) q).
Proof.
  intros Hp Hq. unfold Optional.swap.
  rewrite (engaged_has_value _ _ Hp), (engaged_has_value _ _ Hq).
  rewrite (engaged_deref _ _ Hp), (engaged_deref _ _ Hq). simpl.
  destruct (swap_values (ops T) x y) as [[x' y'] [|]]; reflexivity.
Qed.

Lemma optional_swap_left p q x :
  Optional.engaged T p x -> Optional.disengaged q ->
  Optional.swap T p q = Optional.move_over T p q.
Proof.
  intros Hp Hq. unfold Optional.swap.
  rewrite (engaged_has_value _ _ Hp), (disengaged_has_value _ Hq). reflexivity.
Qed.

Lemma optional_swap_right p q y :
  Optional.disengaged p -> Optional.engaged T q y ->
  Optional.swap T p q =
    and_then (fun '(q', p') => (p', q')) (Optional.move_over T q p)
      (fun '(q', p') => Returns (p', q')).
Proof.
  intros Hp Hq. unfold Optional.swap.
  rewrite (engaged_has_value _ _ Hq), (disengaged_has_value _ Hp). reflexivity.
Qed.

Lemma optional_swap_none p q :
  Optional.disengaged p -> Optional.disengaged q ->
  Optional.swap T p q = Returns (p, q).
Proof.
  intros Hp Hq. unfold Optional.swap.
  rewrite (disengaged_has_value _ Hp), (disengaged_has_value _ Hq). reflexivity.
Qed.

(** Every operation of [optional] keeps it consistent: [null_] is true
    exactly when the storage holds no object.  From consistent operands no
    operation faults, bar assignment from a null optional, and the states
    an exception leaves behind are consistent too.  A constructor that
    throws leaves only its source. *)
Theorem optional_operations_consistent :
  Optional.consistent T (@Optional.null_optional ty V)
  /\ (forall val,
        ends_in (fun s => Optional.consistent T s.1) (fun _ => True)
          (Optional.value_construct T val))
  /\ (forall moved val opt, Optional.consistent T opt ->
        leaves (fun s => Optional.consistent T s.1)
          (Optional.assign_value T moved val opt))
  /\ (forall moved other, Optional.consistent T other ->
        ends_in (fun s => Optional.consistent T s.1 /\ Optional.consistent T s.2)
          (fun s => Optional.consistent T s.1)
          (Optional.construct T moved other))
  /\ (forall moved other this x,
        Optional.engaged T other x -> Optional.consistent T this ->
        leaves (fun s => Optional.consistent T s.1 /\ Optional.consistent T s.2)
          (Optional.assign_optional T moved other this))
  /\ (forall arg opt, Optional.consistent T opt ->
        leaves (fun s => Optional.consistent T s.1) (Optional.emplace T arg opt))
  /\ (forall p q, Optional.consistent T p -> Optional.consistent T q ->
        leaves (fun s => Optional.consistent T s.1 /\ Optional.consistent T s.2)
          (Optional.swap T p q))
  /\ (forall opt, Optional.consistent T opt ->
        leaves (Optional.consistent T) (Optional.assign_nullopt T opt)).
Proof.
  assert (forall arg opt, Optional.consistent T opt ->
            leaves (fun s => Optional.consistent T s.1) (Optional.emplace T arg opt))
    as Hemplace.
  { intros arg opt [Hd|[held He]].
    - rewrite (optional_emplace_disengaged _ _ Hd).
      destruct (construct_from T arg) as [[x|] arg']; simpl.
      + right. exists x. split; reflexivity.
      + left. exact Hd.
    - pose proof (optional_emplace_engaged_leaves arg opt held He) as Hl.
      destruct (Optional.emplace T arg opt) as [s|s|]; simpl in *; [| |exact Hl];
        right; exact (proj1 Hl). }
  split; [left; split; reflexivity|].
  split.
  { intros val. unfold Optional.value_construct.
    rewrite optional_emplace_member_spec.
    destruct (construct_from T (by_move val)) as [[x|] arg']; simpl; [|exact I].
    right. exists x. split; reflexivity. }
  split; [intros moved val opt Hc; apply Hemplace, Hc|].
  split.
  { intros moved other [Hd|[x He]]; unfold Optional.construct.
    - rewrite (disengaged_has_value _ Hd). simpl.
      split; [left; exact Hd|]. left. destruct Hd as [Hn _].
      split; [exact Hn|reflexivity].
    - rewrite (engaged_has_value _ _ He), (engaged_deref _ _ He).
      rewrite optional_emplace_member_spec.
      pose proof (fun s => consistent_engaged _ _ (engaged_with_storage _ _ s He)) as Hsrc.
      destruct (construct_from T (forwarded moved x)) as [[x'|] arg']; simpl.
      + split; [apply Hsrc|]. right. exists x'.
        split; [simpl; destruct He as [Hn _]; exact Hn|reflexivity].
      + apply Hsrc. }
  split.
  { intros moved other this x He Hc. unfold Optional.assign_optional.
    rewrite (engaged_deref _ _ He).
    pose proof (fun s => consistent_engaged _ _ (engaged_with_storage _ _ s He)) as Hsrc.
    pose proof (Hemplace (forwarded moved x) this Hc) as Hl.
    destruct (Optional.emplace T (forwarded moved x) this) as [[t r]|[t r]|];
      simpl in *; [| |exact Hl]; (split; [apply Hsrc|exact Hl]). }
  split; [exact Hemplace|].
  split.
  { intros p q [Hp|[x Hp]] [Hq|[y Hq]].
    - rewrite (optional_swap_none _ _ Hp Hq). simpl. split; left; assumption.
    - rewrite (optional_swap_right _ _ _ Hp Hq), (optional_move_over_spec _ _ _ Hq Hp).
      destruct (move_ctor (ops T) y) as [[y'|] s]; simpl.
      + split; [right; exists y'; split; reflexivity|apply consistent_disengaged_fresh].
      + split; [left; exact Hp|].
        exact (consistent_engaged _ _ (engaged_with_storage _ _ s Hq)).
    - rewrite (optional_swap_left _ _ _ Hp Hq), (optional_move_over_spec _ _ _ Hp Hq).
      destruct (move_ctor (ops T) x) as [[x'|] s]; simpl.
      + split; [apply consistent_disengaged_fresh|right; exists x'; split; reflexivity].
      + split; [|left; exact Hq].
        exact (consistent_engaged _ _ (engaged_with_storage _ _ s Hp)).
    - rewrite (optional_swap_engaged _ _ _ _ Hp Hq).
      destruct (swap_values (ops T) x y) as [[x' y'] [|]]; simpl;
        (split;
         [exact (consistent_engaged _ _ (engaged_with_storage _ _ x' Hp))
         |exact (consistent_engaged _ _ (engaged_with_storage _ _ y' Hq))]). }
  intros opt [Hd|[x He]].
  - rewrite (optional_reset_disengaged _ Hd). left. exact Hd.
  - rewrite (optional_reset_engaged _ _ He). apply consistent_disengaged_fresh.
Qed.

(** ** swap and comparison of optionals *)

Lemma optional_deref_disengaged opt :
  Optional.disengaged opt -> Optional.deref T opt = None.
Proof. intros [Hn _]. unfold Optional.deref. rewrite Hn. reflexivity. Qed.

Lemma optional_swap_exchange p q :
  move_preserves T -> swap_exchanges T ->
  Optional.consistent T p -> Optional.consistent T q ->
  ends_in
    (fun s => (Optional.null_ s.1 = Optional.null_ q
               /\ Optional.deref T s.1 = Optional.deref T q)
              /\ (Optional.null_ s.2 = Optional.null_ p
                  /\ Optional.deref T s.2 = Optional.deref T p)
              /\ Optional.consistent T s.1 /\ Optional.consistent T s.2)
    (fun _ => True) (Optional.swap T p q).
Proof.
  intros Hmv Hsw [Hp|[x Hp]] [Hq|[y Hq]].
  - rewrite (optional_swap_none _ _ Hp Hq). simpl.
    rewrite (optional_deref_disengaged _ Hp), (optional_deref_disengaged _ Hq).
    destruct Hp as [Hnp Hsp], Hq as [Hnq Hsq].
    repeat split; try congruence; left; split; assumption.
  - rewrite (optional_swap_right _ _ _ Hp Hq), (optional_move_over_spec _ _ _ Hq Hp).
    pose proof (Hmv y) as Hpres.
    destruct (move_ctor (ops T) y) as [[y'|] s]; simpl; [|exact I].
    rewrite (Hpres y' s eq_refl).
    rewrite (engaged_deref _ _ Hq), (optional_deref_disengaged _ Hp).
    destruct Hp as [Hnp _], Hq as [Hnq _].
    split; [split; [simpl; congruence|]|].
    { unfold Optional.deref. simpl. apply get_storage_same. }
    split; [split; [simpl; congruence|reflexivity]|].
    split; [right; exists y; split; reflexivity|apply consistent_disengaged_fresh].
  - rewrite (optional_swap_left _ _ _ Hp Hq), (optional_move_over_spec _ _ _ Hp Hq).
    pose proof (Hmv x) as Hpres.
    destruct (move_ctor (ops T) x) as [[x'|] s]; simpl; [|exact I].
    rewrite (Hpres x' s eq_refl).
    rewrite (engaged_deref _ _ Hp), (optional_deref_disengaged _ Hq).
    destruct Hp as [Hnp _], Hq as [Hnq _].
    split; [split; [simpl; congruence|reflexivity]|].
    split; [split; [simpl; congruence|]|].
    { unfold Optional.deref. simpl. apply get_storage_same. }
    split; [apply consistent_disengaged_fresh|right; exists x; split; reflexivity].
  - rewrite (optional_swap_engaged _ _ _ _ Hp Hq).
    pose proof (Hsw x y) as Hex.
    destruct (swap_values (ops T) x y) as [[x' y'] [|]]; simpl; [|exact I].
    destruct (Hex x' y' eq_refl) as [-> ->].
    pose proof (engaged_with_storage _ _ y Hp) as Hp'.
    pose proof (engaged_with_storage _ _ x Hq) as Hq'.
    rewrite (engaged_deref _ _ Hp'), (engaged_deref _ _ Hq'),
      (engaged_deref _ _ Hp), (engaged_deref _ _ Hq).
    destruct Hp as [Hnp _], Hq as [Hnq _].
    split; [split; [simpl; congruence|reflexivity]|].
    split; [split; [simpl; congruence|reflexivity]|].
    split; [exact (consistent_engaged _ _ Hp')|exact (consistent_engaged _ _ Hq')].
Qed.

(** [swap] of two consistent optionals never faults; it exchanges their
    states, so two swaps that both return restore what each optional
    shows.  The type's move constructor and swap are taken to preserve
    values when they complete. *)
Theorem optional_swap_twice p q :
  move_preserves T -> swap_exchanges T ->
  Optional.consistent T p -> Optional.consistent T q ->
  ends_in
    (fun once =>
       (Optional.deref T once.1 = Optional.deref T q
        /\ Optional.deref T once.2 = Optional.deref T p)
       /\ ends_in
            (fun twice =>
               Optional.null_ twice.1 = Optional.null_ p
               /\ Optional.deref T twice.1 = Optional.deref T p
               /\ Optional.null_ twice.2 = Optional.null_ q
               /\ Optional.deref T twice.2 = Optional.deref T q)
            (fun _ => True) (Optional.swap T once.1 once.2))
    (fun _ => True) (Optional.swap T p q).
Proof.
  intros Hmv Hsw Hp Hq.
  pose proof (optional_swap_exchange p q Hmv Hsw Hp Hq) as H1.
  destruct (Optional.swap T p q) as [[p1 q1]|?|]; simpl in *; [|exact I|exact H1].
  destruct H1 as ((Hn1 & Hd1) & (Hn2 & Hd2) & Hc1 & Hc2).
  split; [split; assumption|].
  pose proof (optional_swap_exchange p1 q1 Hmv Hsw Hc1 Hc2) as H2.
  destruct (Optional.swap T p1 q1) as [[p2 q2]|?|]; simpl in *; [|exact I|exact H2].
  destruct H2 as ((Hn3 & Hd3) & (Hn4 & Hd4) & _ & _).
  repeat split; congruence.
Qed.

(** [a == b] on consistent optionals returns; it is true exactly when both
    are null, or both are engaged and the type's [==] holds of the two
    objects.  The hash of a null optional is 19937, that of an engaged one
    the type's hash of its object. *)
Theorem optional_eq_hash_spec p q :
  Optional.consistent T p -> Optional.consistent T q ->
  (exists r, Optional.optional_eq T p q = Returns r
     /\ (r = true <->
           (Optional.null_ p = true /\ Optional.null_ q = true)
           \/ exists x y, Optional.engaged T p x /\ Optional.engaged T q y
                          /\ equal (ops T) x y = true))
  /\ (Optional.null_ p = true -> Optional.hash T p = Returns 19937%N)
  /\ (forall x, Optional.engaged T p x ->
        Optional.hash T p = Returns (std_hash (ops T) x)).
Proof.
  intros Hp Hq. split; [|split].
  - unfold Optional.optional_eq.
    destruct Hp as [Hp|[x Hp]], Hq as [Hq|[y Hq]].
    + rewrite (disengaged_has_value _ Hp), (disengaged_has_value _ Hq). simpl.
      exists true. split; [reflexivity|]. split; [|reflexivity].
      intros _. left. destruct Hp, Hq. split; assumption.
    + rewrite (disengaged_has_value _ Hp), (engaged_has_value _ _ Hq). simpl.
      exists false. split; [reflexivity|]. split; [discriminate|].
      intros [[_ Hn]|(x & y' & [Hn _] & _)].
      * destruct Hq as [Hnq _]. congruence.
      * destruct Hp as [Hnp _]. congruence.
    + rewrite (engaged_has_value _ _ Hp), (disengaged_has_value _ Hq). simpl.
      exists false. split; [reflexivity|]. split; [discriminate|].
      intros [[Hn _]|(x' & y & _ & [Hn _] & _)].
      * destruct Hp as [Hnp _]. congruence.
      * destruct Hq as [Hnq _]. congruence.
    + rewrite (engaged_has_value _ _ Hp), (engaged_has_value _ _ Hq). simpl.
      rewrite (engaged_deref _ _ Hp), (engaged_deref _ _ Hq).
      exists (equal (ops T) x y). split; [reflexivity|]. split.
      * intros Hr. right. exists x, y. auto.
      * intros [[Hn _]|(x' & y' & [_ Hsx] & [_ Hsy] & Hr)].
        { destruct Hp as [Hnp _]. congruence. }
        destruct Hp as [_ Hsp], Hq as [_ Hsq].
        assert (x' = x) by congruence. assert (y' = y) by congruence.
        subst. exact Hr.
  - intros Hn. unfold Optional.hash, Optional.has_value. rewrite Hn. reflexivity.
  - intros x He. unfold Optional.hash.
    rewrite (engaged_has_value _ _ He), (engaged_deref _ _ He). reflexivity.
Qed.

(** ** A variant of one alternative against the optional *)

Lemma single_settled var :
  Types = [T] -> settled var ->
  (is_empty var /\ storage_ var = None /\ Optional.disengaged (as_optional var))
  \/ exists x, holds var T x /\ Optional.engaged T (as_optional var) x.
Proof.
  intros HTs [[He Hs]|(U & x & Hh)].
  - left. split; [exact He|]. split; [exact Hs|].
    split; [|exact Hs]. simpl. rewrite (empty_has_value _ He). reflexivity.
  - right. assert (U = T) as ->.
    { pose proof (holds_elem _ _ _ Hh) as HU. rewrite HTs in HU.
      apply list_elem_of_singleton in HU. exact HU. }
    exists x. split; [exact Hh|].
    split; [simpl; rewrite (holds_has_value _ _ _ Hh); reflexivity|].
    destruct Hh as (_ & _ & Hs). exact Hs.
Qed.

(** Over the single non-trivial alternative [T], [variant<T>] behaves as
    [optional<T>] does on the corresponding state: [emplace], reset, hash
    and [==] give corresponding results, exceptions included.  (Assignment
    from an empty source is where the two classes part.) *)
Theorem single_alternative_variant_as_optional arg var b :
  Types = [T] -> trivial = false -> settled var -> settled b ->
  outcome_map as_optional_with (emplace T arg var)
    = Optional.emplace T arg (as_optional var)
  /\ outcome_map as_optional (assign_nullvar var)
     = Optional.assign_nullopt T (as_optional var)
  /\ variant_hash var = Optional.hash T (as_optional var)
  /\ variant_eq var b = Optional.optional_eq T (as_optional var) (as_optional b).
Proof.
  intros HTs Htriv Hs Hb.
  assert (T ∈ Types) as HT by (rewrite HTs; apply list_elem_of_here).
  assert (forall v x, holds v T x -> has_value v = true) as Hhv
    by (intros v x Hh; exact (holds_has_value _ _ _ Hh)).
  assert (forall h d, as_optional {| storage_ := Some (T, h);
                                     which_ := get_index T Types; destroyed_ := d |}
                      = {| Optional.storage_ := Some (T, h); Optional.null_ := false;
                           Optional.destroyed_ := map snd d |}) as Hup.
  { intros h d. unfold as_optional. simpl.
    rewrite (Hhv _ h (holds_intro T h _ d HT eq_refl)). reflexivity. }
  destruct (single_settled var HTs Hs) as [(He & Hn & Hd)|(x & Hh & Hx)].
  - split; [|split; [|split]].
    + rewrite (emplace_empty _ _ _ HT He), (optional_emplace_disengaged _ _ Hd).
      destruct (construct_from T arg) as [[x|] arg']; simpl.
      * unfold as_optional_with. simpl. rewrite Hup. reflexivity.
      * unfold as_optional_with. simpl. f_equal. f_equal.
        unfold as_optional, with_storage, has_value. simpl. rewrite Hn. reflexivity.
    + rewrite (reset_empty _ He), (optional_reset_disengaged _ Hd). reflexivity.
    + rewrite (proj1 (hash_holds_or_empty var) He).
      unfold Optional.hash. rewrite (disengaged_has_value _ Hd). reflexivity.
    + unfold Optional.optional_eq. rewrite (disengaged_has_value _ Hd). simpl.
      destruct (single_settled b HTs Hb) as [(Heb & _ & Hdb)|(y & Hhb & Hyb)].
      * rewrite (eq_both_empty _ _ He Heb), (disengaged_has_value _ Hdb). reflexivity.
      * rewrite (engaged_has_value _ _ Hyb). simpl. apply eq_different_index.
        pose proof (holds_index_lt _ _ _ Hhb). unfold which, is_empty in *. lia.
  - split; [|split; [|split]].
    + rewrite (emplace_in_place _ _ _ _ Htriv Hh), (optional_emplace_engaged _ _ _ Hx).
      cbv zeta.
      assert (forall h, as_optional {| storage_ := Some (T, h);
                          which_ := get_index T Types; destroyed_ := destroyed_ var |}
                        = Optional.with_storage (Some (T, h)) (as_optional var)) as Hw.
      { intros h. rewrite Hup. unfold Optional.with_storage, as_optional. simpl.
        rewrite (Hhv _ _ Hh). reflexivity. }
      destruct (assignable T arg).
      * destruct (assign_arg T x arg) as [[h arg'] [|]]; simpl;
          unfold as_optional_with; simpl; rewrite Hw; reflexivity.
      * destruct (construct_from T arg) as [[tmp|] arg']; simpl; [|reflexivity].
        destruct (move_assign (ops T) x tmp) as [[h s] [|]]; simpl;
          unfold as_optional_with; simpl; rewrite Hw; reflexivity.
    + rewrite (reset_holds _ _ _ Htriv Hh), (optional_reset_engaged _ _ Hx). simpl.
      f_equal. unfold as_optional. simpl.
      unfold has_value. simpl. rewrite Nat.eqb_refl. reflexivity.
    + rewrite (proj2 (hash_holds_or_empty var) _ _ Hh).
      unfold Optional.hash. rewrite (engaged_has_value _ _ Hx), (engaged_deref _ _ Hx).
      reflexivity.
    + unfold Optional.optional_eq. rewrite (engaged_has_value _ _ Hx). simpl.
      destruct (single_settled b HTs Hb) as [(Heb & _ & Hdb)|(y & Hhb & Hyb)].
      * rewrite (disengaged_has_value _ Hdb). simpl. apply eq_different_index.
        pose proof (holds_index_lt _ _ _ Hh). unfold which, is_empty in *. lia.
      * rewrite (engaged_has_value _ _ Hyb), (engaged_deref _ _ Hx),
          (engaged_deref _ _ Hyb).
        apply (eq_same_alternative _ _ _ _ _ Hh Hhb).
Qed.

End OptionalTheory.

(** * The example alternatives: instances of the theorems *)

Ltac in_types := repeat constructor.
Ltac holds_now := split; [in_types | split; reflexivity].

(** The scenario of the example program: [variant<int, float,
    std::string> v(4)] holds index 0; [v == 4] is true and [v == 3.f] is
    false; [v = std::string(...)] moves the tag to the string's index and
    destroys the int once. *)
Example example_scenario :
  value_construct (alts := example_set) 9 t_int (by_move 4%Z)
    = Returns (holding example_set t_int 4%Z, by_move 4%Z)
  /\ variant_eq_value (alts := example_set) t_int (holding example_set t_int 4%Z) 4%Z
     = Returns true
  /\ variant_eq_value (alts := example_set) t_float (holding example_set t_int 4%Z) 3%Z
     = Returns false
  /\ assign_value (alts := example_set) t_string (by_move 5%Z)
       (holding example_set t_int 4%Z)
     = Returns ({| storage_ := Some (t_string, 5%Z); which_ := 2;
                   destroyed_ := [(t_int, 4%Z)] |}, by_move 0%Z).
Proof. repeat split; reflexivity. Qed.

Lemma emplace_strong_safety_witness :
  emplace (alts := example_set) t_string (pack (-1)%Z) (holding example_set t_int 4%Z)
  = Throws (holding example_set t_int 4%Z, pack (-1)%Z).
Proof.
  apply (emplace_strong_safety (alts := example_set) t_string (pack (-1)%Z)
           (holding example_set t_int 4%Z) t_int 4%Z);
    [reflexivity | holds_now | in_types | discriminate
    | reflexivity | reflexivity | reflexivity].
Defined.

Lemma emplace_same_alternative_witness :
  leaves (fun s => which s.1 = which (holding example_set t_string 5%Z)
                   /\ which s.1 = 2
                   /\ destroyed_ s.1 = []
                   /\ exists h, storage_ s.1 = Some (t_string, h))
    (emplace (alts := example_set) t_string (pack 7%Z)
       (holding example_set t_string 5%Z))
  /\ emplace (alts := example_set) t_string (by_copy 8%Z)
       (holding example_set t_string 5%Z)
     = Returns (holding example_set t_string 8%Z, by_copy 8%Z)
  /\ emplace (alts := example_set) t_string (by_move 8%Z)
       (holding example_set t_string 5%Z)
     = Returns (holding example_set t_string 8%Z, by_move 0%Z)
  /\ emplace (alts := example_set) t_int (pack 9%Z)
       (holding example_set t_int 4%Z)
     = Returns (holding example_set t_int 9%Z, pack 9%Z)
  /\ emplace (alts := example_set) t_string (pack 7%Z)
       (holding example_set t_string 5%Z)
     = Returns (holding example_set t_string 7%Z, pack 7%Z)
  /\ emplace (alts := example_set) t_string (pack (-1)%Z)
       (holding example_set t_string 5%Z)
     = Throws (holding example_set t_string 5%Z, pack (-1)%Z).
Proof.
  pose proof (emplace_same_alternative (alts := example_set) t_string
                (holding example_set t_string 5%Z) 5%Z eq_refl
                ltac:(holds_now)) as (Hframe & Hcopy & Hmove & _ & Htmp & _).
  pose proof (emplace_same_alternative (alts := example_set) t_int
                (holding example_set t_int 4%Z) 4%Z eq_refl
                ltac:(holds_now)) as (_ & _ & _ & Hfrom & _).
  split; [exact (Hframe (pack 7%Z))|].
  split; [exact (Hcopy 8%Z 8%Z true eq_refl eq_refl)|].
  split; [exact (Hmove 8%Z 8%Z 0%Z true eq_refl)|].
  split; [exact (Hfrom 9%Z 9%Z true eq_refl eq_refl)|].
  split; [exact (Htmp 7%Z eq_refl)|].
  exact (Htmp (-1)%Z eq_refl).
Defined.

Lemma assign_from_empty_source_witness :
  copy_assign_variant (alts := example_set) (nothing example_set) (holding example_set t_string 5%Z)
    = Returns ((nothing example_set), holding example_set t_string 5%Z)
  /\ move_assign_variant (alts := example_set) (nothing example_set) (holding example_set t_string 5%Z)
    = Returns ((nothing example_set), holding example_set t_string 5%Z).
Proof.
  apply (assign_from_empty_source (alts := example_set) (nothing example_set)
           (holding example_set t_string 5%Z) t_string 5%Z);
    [reflexivity | reflexivity | holds_now].
Defined.

Lemma variant_eq_spec_witness :
  exists r,
    variant_eq (alts := example_set) (holding example_set t_int 4%Z)
      (holding example_set t_int 4%Z) = Returns r
    /\ (r = true <->
          (is_empty (alts := example_set) (holding example_set t_int 4%Z)
           /\ is_empty (alts := example_set) (holding example_set t_int 4%Z))
          \/ exists T x y,
               holds (alts := example_set) (holding example_set t_int 4%Z) T x
               /\ holds (alts := example_set) (holding example_set t_int 4%Z) T y
               /\ equal (ops (alternative_set := example_set) T) x y = true)
    /\ (which (holding example_set t_int 4%Z) <> which (holding example_set t_int 4%Z)
        -> r = false).
Proof.
  apply (variant_eq_spec (alts := example_set) (holding example_set t_int 4%Z)
           (holding example_set t_int 4%Z));
    right; exists t_int, 4%Z; holds_now.
Defined.

(** C2: [const variant<optional<int>, optional<float>> a;] and then
    [variant<optional<int>, optional<float>> b(a);].  Both alternatives are
    classes of [foonathan::storage], so the copy constructor has an
    instance; the set is not trivial, so it takes the generic [construct].
    The source is empty: [construct] runs [*this = nullvar] on [b], whose
    [which_] nobody has written.  Read as 7 it is not [N = 2], so the
    destroy visitor is sent through entry 7 of a table of two.  Any value
    but [N] ends without a result; only [N] gives the empty variant. *)
Theorem copy_construct_from_empty_unset_tag :
  trivial (alts := lib_set) = false
  /\ construct_instantiates (alts := lib_set) = true
  /\ copy_construct (alts := lib_set) 7 (nothing lib_set) = Fault
  /\ (forall w, w <> 2 ->
        copy_construct (alts := lib_set) w (nothing lib_set) = Fault)
  /\ copy_construct (alts := lib_set) 2 (nothing lib_set)
     = Returns (nothing lib_set, nothing lib_set).
Proof.
  split; [reflexivity|]. split; [reflexivity|]. split; [reflexivity|].
  split; [|reflexivity].
  intros w Hw. unfold copy_construct.
  change (trivial (alts := lib_set) || construct_instantiates (alts := lib_set))
    with true. cbv iota.
  apply (construct_from_empty_uninitialized (alts := lib_set));
    [reflexivity | reflexivity | exact Hw].
Qed.

(** C4: [variant<optional<int>, optional<float>> a;] and then
    [variant<optional<int>, optional<float>> b(std::move(a));].  The empty
    source satisfies the invariant.  The move constructor tests the tag of
    [b] before anything has written it; read as 7, the call has no result,
    let alone variants that satisfy the invariant.  And [swap], one of the
    operations the invariant is stated for, has no instance. *)
Theorem move_construct_from_empty_breaks_invariant :
  invariant (alts := lib_set) (nothing lib_set)
  /\ move_construct (alts := lib_set) 7 (nothing lib_set) = Fault
  /\ ~ ends_in (both (invariant (alts := lib_set)))
         (of_variant (invariant (alts := lib_set)))
         (move_construct (alts := lib_set) 7 (nothing lib_set))
  /\ ~ leaves (both (invariant (alts := lib_set)))
         (swap (holding lib_set t_optional_int 4%Z)
            (nothing lib_set)).
Proof.
  split.
  { apply (settled_invariant (alts := lib_set)). left. split; reflexivity. }
  split; [reflexivity|]. split; intros H; exact H.
Qed.

(** C8: [variant<int, float, std::string> a(4), b; swap(a, b);] and, over
    an all-trivial set, [variant<int, float> c(4), d(2.f); swap(c, d);].
    Neither call has an instance of [swap] to run: there is no first swap
    to undo by a second. *)
Theorem swap_has_no_instance :
  swap (holding example_set t_int 4%Z) (nothing example_set)
    = Fault
  /\ swap (holding scalar_set t_int 4%Z)
       (holding scalar_set t_float 2%Z)
     = Fault
  /\ forall a b : @variant cpp_type Z,
       ~ exists a1 b1, swap a b = Returns (a1, b1).
Proof.
  split; [reflexivity|]. split; [reflexivity|].
  intros a b (a1 & b1 & H). discriminate H.
Qed.

Lemma example_distinct : NoDup (Types (alternative_set := example_set)).
Proof.
  cbn. repeat (apply NoDup_cons_2;
               [rewrite ?elem_of_cons, elem_of_nil; intuition discriminate|]).
  apply NoDup_nil_2.
Qed.

Lemma scalar_distinct : NoDup (Types (alternative_set := scalar_set)).
Proof.
  cbn. repeat (apply NoDup_cons_2;
               [rewrite ?elem_of_cons, elem_of_nil; intuition discriminate|]).
  apply NoDup_nil_2.
Qed.

Lemma example_moves T : T ∈ [t_int; t_float; t_string] ->
  move_preserves (alts := example_set) T.
Proof. intros _ x x' s. destruct T; simpl; intros [= <- _]; reflexivity. Qed.

Lemma example_swaps T : T ∈ [t_int; t_float; t_string] ->
  swap_exchanges (alts := example_set) T.
Proof.
  intros _ x y x' y'. destruct T; simpl; intros [= <- <-]; split; reflexivity.
Qed.

Lemma get_index_first_occurrence_witness :
  ([t_int; t_float; t_int] !! get_index t_int [t_int; t_float; t_int] = Some t_int
   /\ forall j, j < get_index t_int [t_int; t_float; t_int] ->
        [t_int; t_float; t_int] !! j <> Some t_int)
  /\ get_index t_string [t_int; t_float; t_int] = 3.
Proof.
  split.
  - apply (proj1 (get_index_first_occurrence t_int [t_int; t_float; t_int])).
    in_types.
  - apply (proj2 (get_index_first_occurrence t_string [t_int; t_float; t_int])).
    rewrite !elem_of_cons, elem_of_nil. intuition discriminate.
Defined.

Lemma hash_of_variant_witness :
  variant_hash (alts := example_set) (nothing example_set) = Returns 19937%N
  /\ variant_hash (alts := example_set) (holding example_set t_string 5%Z)
     = Returns 6%N.
Proof.
  split.
  - apply (proj1 (hash_of_variant (alts := example_set) (nothing example_set))).
    reflexivity.
  - apply (proj2 (hash_of_variant (alts := example_set)
                    (holding example_set t_string 5%Z)) t_string 5%Z).
    holds_now.
Defined.

(** C6: over the all-trivial [variant<int, float>], assignment from an
    empty source to a target holding the int 4.  The fast path of
    [operator=] copies storage and tag, the target becomes empty; the
    visiting branch of the same operator returns at once for an empty
    source, the target still holds 4.  Copy and move assignment alike. *)
Theorem assignment_paths_differ_on_empty_source (moved : bool) :
  assign_variant (alts := scalar_set) moved
      (nothing scalar_set) (holding scalar_set t_int 4%Z)
    = Returns (nothing scalar_set,
               {| storage_ := None; which_ := 2; destroyed_ := [] |})
  /\ assign_visit (alts := scalar_set) moved
       (nothing scalar_set) (holding scalar_set t_int 4%Z)
     = Returns (nothing scalar_set, holding scalar_set t_int 4%Z)
  /\ held_value (alts := scalar_set)
       {| storage_ := None; which_ := 2; destroyed_ := [] |} = None
  /\ held_value (alts := scalar_set) (holding scalar_set t_int 4%Z)
     = Some (t_int, 4%Z).
Proof. repeat split; reflexivity. Qed.

(** * Instances of the further properties *)

Ltac well_formed_now T x := right; exists T, x; holds_now.

Lemma contains_iff_get_witness :
  contains (alts := example_set) t_string (holding example_set t_string 5%Z) = true
  <-> exists x, get (alts := example_set) t_string (holding example_set t_string 5%Z)
                = Some x.
Proof.
  apply (contains_iff_get (alts := example_set) t_string
           (holding example_set t_string 5%Z)).
  well_formed_now t_string 5%Z.
Defined.

Lemma emplace_then_contains_witness :
  contains (alts := example_set) t_string
    {| storage_ := Some (t_string, 7%Z); which_ := 2; destroyed_ := [(t_int, 4%Z)] |}
  = true
  /\ which (V := Z)
       {| storage_ := Some (t_string, 7%Z); which_ := 2; destroyed_ := [(t_int, 4%Z)] |}
     = get_index t_string [t_int; t_float; t_string]
  /\ exists x,
       get (alts := example_set) t_string
         {| storage_ := Some (t_string, 7%Z); which_ := 2;
            destroyed_ := [(t_int, 4%Z)] |} = Some x
       /\ held_value (alts := example_set)
            {| storage_ := Some (t_string, 7%Z); which_ := 2;
               destroyed_ := [(t_int, 4%Z)] |} = Some (t_string, x).
Proof.
  apply (emplace_then_contains (alts := example_set) t_string (pack 7%Z)
           (holding example_set t_int 4%Z) _ (pack 7%Z)).
  reflexivity.
Defined.

Lemma reset_clears_witness :
  exists var',
    assign_nullvar (alts := example_set) (holding example_set t_string 5%Z)
      = Returns var'
    /\ has_value (alts := example_set) var' = false
    /\ (forall T, contains (alts := example_set) T var' = false
                  /\ get (alts := example_set) T var' = None)
    /\ (trivial (alts := example_set) = false -> forall T x,
          holds (alts := example_set) (holding example_set t_string 5%Z) T x ->
          storage_ var' = None
          /\ destroyed_ var' = (T, x) :: destroyed_ (holding example_set t_string 5%Z)).
Proof.
  apply (reset_clears (alts := example_set) (holding example_set t_string 5%Z)).
  well_formed_now t_string 5%Z.
Defined.

Lemma emplace_other_alternative_witness :
  ends_in
    (fun s => (exists x, holds (alts := example_set) s.1 t_string x)
              /\ destroyed_ s.1 = [(t_int, 4%Z)])
    (fun s => s.1 = holding example_set t_int 4%Z
              \/ (is_empty (alts := example_set) s.1 /\ storage_ s.1 = None
                  /\ destroyed_ s.1 = [(t_int, 4%Z)]))
    (emplace (alts := example_set) t_string (pack 7%Z) (holding example_set t_int 4%Z)).
Proof.
  apply (emplace_other_alternative (alts := example_set) t_string (pack 7%Z)
           (holding example_set t_int 4%Z) t_int 4%Z);
    [reflexivity | holds_now | in_types | discriminate].
Defined.

Lemma eq_value_as_variant_witness :
  variant_eq_value (alts := example_set) t_int (holding example_set t_int 4%Z) 4%Z
  = variant_eq (alts := example_set) (holding example_set t_int 4%Z)
      (holding example_set t_int 4%Z).
Proof.
  apply (eq_value_as_variant (alts := example_set) t_int
           (holding example_set t_int 4%Z) 4%Z []);
    [well_formed_now t_int 4%Z | in_types].
Defined.

Lemma example_equal_refl T (x : Z) : equal (cpp_ops T) x x = true.
Proof. destruct T; simpl; apply Z.eqb_refl. Qed.

Lemma example_equal_sym T (x y : Z) : equal (cpp_ops T) x y = equal (cpp_ops T) y x.
Proof. destruct T; simpl; apply Z.eqb_sym. Qed.

Lemma example_hash_respects T (x y : Z) :
  equal (cpp_ops T) x y = true -> std_hash (cpp_ops T) x = std_hash (cpp_ops T) y.
Proof. destruct T; simpl; intros Heq; apply Z.eqb_eq in Heq; subst; reflexivity. Qed.

Lemma variant_eq_refl_sym_witness :
  variant_eq (alts := example_set) (holding example_set t_int 4%Z)
    (holding example_set t_int 4%Z) = Returns true
  /\ variant_eq (alts := example_set) (holding example_set t_int 4%Z)
       (holding example_set t_string 5%Z)
     = variant_eq (alts := example_set) (holding example_set t_string 5%Z)
         (holding example_set t_int 4%Z).
Proof.
  destruct (variant_eq_refl_sym (alts := example_set)
              (holding example_set t_int 4%Z) (holding example_set t_string 5%Z)
              ltac:(well_formed_now t_int 4%Z) ltac:(well_formed_now t_string 5%Z))
    as [Hrefl Hsym].
  split.
  - apply Hrefl. intros T x _. apply example_equal_refl.
  - apply Hsym. intros T x y _. apply example_equal_sym.
Defined.

Lemma equal_variants_hash_equal_witness :
  variant_hash (alts := example_set) (holding example_set t_string 5%Z)
  = variant_hash (alts := example_set)
      {| storage_ := Some (t_string, 5%Z); which_ := 2; destroyed_ := [(t_int, 4%Z)] |}.
Proof.
  apply (equal_variants_hash_equal (alts := example_set));
    [intros T x y _; apply example_hash_respects
    | well_formed_now t_string 5%Z | well_formed_now t_string 5%Z | reflexivity].
Defined.

Lemma copy_compares_equal_witness :
  exists this,
    copy_construct (alts := lib_set) 7 (holding lib_set t_optional_float 5%Z)
      = Returns (holding lib_set t_optional_float 5%Z, this)
    /\ same_value (alts := lib_set) this (holding lib_set t_optional_float 5%Z)
    /\ variant_eq (alts := lib_set) this (holding lib_set t_optional_float 5%Z)
       = Returns true
    /\ variant_hash (alts := lib_set) this
       = variant_hash (alts := lib_set) (holding lib_set t_optional_float 5%Z).
Proof.
  apply (copy_compares_equal (alts := lib_set) 7
           (holding lib_set t_optional_float 5%Z) t_optional_float 5%Z);
    [reflexivity | holds_now | reflexivity | reflexivity].
Defined.

Lemma move_construct_keeps_source_witness :
  ends_in
    (fun s => (exists s0, holds (alts := lib_set) s.1 t_optional_float s0)
              /\ exists x', holds (alts := lib_set) s.2 t_optional_float x')
    (fun s => exists s0, holds (alts := lib_set) s.1 t_optional_float s0)
    (move_construct (alts := lib_set) 7 (holding lib_set t_optional_float 5%Z)).
Proof.
  apply (move_construct_keeps_source (alts := lib_set) 7
           (holding lib_set t_optional_float 5%Z) t_optional_float 5%Z);
    [reflexivity | holds_now].
Defined.

Lemma assign_takes_alternative_witness :
  which (V := Z)
    {| storage_ := Some (t_string, 5%Z); which_ := 2; destroyed_ := [(t_int, 4%Z)] |}
  = which (holding example_set t_string 5%Z)
  /\ (exists x', holds (alts := example_set)
                   {| storage_ := Some (t_string, 5%Z); which_ := 2;
                      destroyed_ := [(t_int, 4%Z)] |} t_string x')
  /\ exists s, holds (alts := example_set) (holding example_set t_string 5%Z) t_string s.
Proof.
  apply (assign_takes_alternative (alts := example_set) false
           (holding example_set t_string 5%Z) (holding example_set t_int 4%Z)
           t_string 5%Z);
    [holds_now | reflexivity].
Defined.

Lemma try_get_spec_witness :
  try_get (alts := example_set) t_float (holding example_set t_int 4%Z) (by_move 3%Z)
    <> Fault
  /\ (forall x, holds (alts := example_set) (holding example_set t_int 4%Z) t_float x ->
        try_get (alts := example_set) t_float (holding example_set t_int 4%Z)
          (by_move 3%Z)
        = match copy_ctor (cpp_ops t_float) x with
          | Some r => Returns (Some r, by_move 3%Z)
          | None => Throws (None, by_move 3%Z)
          end)
  /\ ((is_empty (alts := example_set) (holding example_set t_int 4%Z)
       \/ t_float ∉ [t_int; t_float; t_string]
       \/ exists U y, holds (alts := example_set) (holding example_set t_int 4%Z) U y
                      /\ U <> t_float) ->
        try_get (alts := example_set) t_float (holding example_set t_int 4%Z)
          (by_move 3%Z)
        = Returns (Some 3%Z, by_move 3%Z)).
Proof.
  apply (try_get_spec (alts := example_set) t_float (holding example_set t_int 4%Z)
           (by_move 3%Z)).
  well_formed_now t_int 4%Z.
Defined.

Lemma storage_fits_every_alternative_witness :
  (exists sv av,
     size_value example_sizeof [t_int; t_float; t_string] = Some sv
     /\ alignment_value example_alignof [t_int; t_float; t_string] = Some av
     /\ (sv <= 32 -> av <= 8 ->
         emplace_enabled example_sizeof example_alignof t_float 32 8 = true))
  /\ size_value example_sizeof [] = None.
Proof.
  apply (storage_fits_every_alternative example_sizeof example_alignof
           [t_int; t_float; t_string] t_float 32 8).
  in_types.
Defined.

Lemma engaged_now (x : Z) :
  Optional.consistent t_string (engaged_with t_string x).
Proof. right. exists x. split; reflexivity. Qed.

Lemma optional_emplace_spec_witness :
  ends_in (fun s => exists x, Optional.engaged t_string s.1 x) (fun _ => True)
    (Optional.emplace (alts := example_set) t_string (pack 7%Z)
       (engaged_with t_string 5%Z))
  /\ (forall held, Optional.engaged t_string (engaged_with t_string 5%Z) held ->
        leaves (fun s => (exists x, Optional.engaged t_string s.1 x)
                         /\ Optional.destroyed_ s.1
                            = Optional.destroyed_ (engaged_with t_string 5%Z))
          (Optional.emplace (alts := example_set) t_string (pack 7%Z)
             (engaged_with t_string 5%Z)))
  /\ (Optional.disengaged (engaged_with t_string 5%Z) ->
        ends_in (fun _ => True) (fun s => s.1 = engaged_with t_string 5%Z)
          (Optional.emplace (alts := example_set) t_string (pack 7%Z)
             (engaged_with t_string 5%Z))).
Proof.
  apply (optional_emplace_spec (alts := example_set) t_string (pack 7%Z)
           (engaged_with t_string 5%Z)).
  apply engaged_now.
Defined.

Lemma optional_assign_spec_witness :
  Optional.assign_optional (alts := example_set) t_string false
    Optional.null_optional (engaged_with t_string 5%Z) = Fault
  /\ ends_in
       (fun s => (exists s0, Optional.engaged t_string s.1 s0)
                 /\ exists x', Optional.engaged t_string s.2 x')
       (fun s => (exists s0, Optional.engaged t_string s.1 s0)
                 /\ Optional.consistent t_string s.2)
       (Optional.assign_optional (alts := example_set) t_string true
          (engaged_with t_string 7%Z) (engaged_with t_string 5%Z)).
Proof.
  split.
  - apply (proj1 (optional_assign_spec (alts := example_set) t_string false
                    Optional.null_optional (engaged_with t_string 5%Z)
                    (engaged_now 5%Z))).
    reflexivity.
  - apply (proj2 (optional_assign_spec (alts := example_set) t_string true
                    (engaged_with t_string 7%Z) (engaged_with t_string 5%Z)
                    (engaged_now 5%Z)) 7%Z).
    split; reflexivity.
Defined.

Lemma optional_swap_twice_witness :
  ends_in
    (fun once =>
       (Optional.deref t_string once.1 = Optional.deref t_string Optional.null_optional
        /\ Optional.deref t_string once.2
           = Optional.deref t_string (engaged_with t_string 5%Z))
       /\ ends_in
            (fun twice =>
               Optional.null_ twice.1 = Optional.null_ (engaged_with t_string 5%Z)
               /\ Optional.deref t_string twice.1
                  = Optional.deref t_string (engaged_with t_string 5%Z)
               /\ Optional.null_ twice.2
                  = Optional.null_ (@Optional.null_optional cpp_type Z)
               /\ Optional.deref t_string twice.2
                  = Optional.deref t_string Optional.null_optional)
            (fun _ => True)
            (Optional.swap (alts := example_set) t_string once.1 once.2))
    (fun _ => True)
    (Optional.swap (alts := example_set) t_string (engaged_with t_string 5%Z)
       Optional.null_optional).
Proof.
  apply (optional_swap_twice (alts := example_set) t_string
           (engaged_with t_string 5%Z) Optional.null_optional);
    [apply example_moves; in_types | apply example_swaps; in_types
    | apply engaged_now | left; split; reflexivity].
Defined.

Lemma optional_eq_hash_spec_witness :
  (exists r,
     Optional.optional_eq (alts := example_set) t_string
       (engaged_with t_string 5%Z) (engaged_with t_string 5%Z) = Returns r
     /\ (r = true <->
           (Optional.null_ (engaged_with t_string 5%Z) = true
            /\ Optional.null_ (engaged_with t_string 5%Z) = true)
           \/ exists x y,
                Optional.engaged t_string (engaged_with t_string 5%Z) x
                /\ Optional.engaged t_string (engaged_with t_string 5%Z) y
                /\ equal (cpp_ops t_string) x y = true))
  /\ (Optional.null_ (engaged_with t_string 5%Z) = true ->
        Optional.hash (alts := example_set) t_string (engaged_with t_string 5%Z)
        = Returns 19937%N)
  /\ (forall x, Optional.engaged t_string (engaged_with t_string 5%Z) x ->
        Optional.hash (alts := example_set) t_string (engaged_with t_string 5%Z)
        = Returns (std_hash (cpp_ops t_string) x)).
Proof.
  apply (optional_eq_hash_spec (alts := example_set) t_string
           (engaged_with t_string 5%Z) (engaged_with t_string 5%Z));
    apply engaged_now.
Defined.

Lemma single_alternative_variant_as_optional_witness :
  outcome_map (as_optional_with (alts := string_set))
    (emplace (alts := string_set) t_string (pack (-1)%Z) (nothing string_set))
    = Optional.emplace (alts := string_set) t_string (pack (-1)%Z)
        (as_optional (alts := string_set) (nothing string_set))
  /\ outcome_map (as_optional (alts := string_set))
       (assign_nullvar (alts := string_set) (nothing string_set))
     = Optional.assign_nullopt t_string
         (as_optional (alts := string_set) (nothing string_set))
  /\ variant_hash (alts := string_set) (nothing string_set)
     = Optional.hash (alts := string_set) t_string
         (as_optional (alts := string_set) (nothing string_set))
  /\ variant_eq (alts := string_set) (nothing string_set)
       (holding string_set t_string 5%Z)
     = Optional.optional_eq (alts := string_set) t_string
         (as_optional (alts := string_set) (nothing string_set))
         (as_optional (alts := string_set) (holding string_set t_string 5%Z)).
Proof.
  apply (single_alternative_variant_as_optional (alts := string_set) t_string
           (pack (-1)%Z) (nothing string_set) (holding string_set t_string 5%Z));
    [reflexivity | reflexivity | left; split; reflexivity
    | right; exists t_string, 5%Z; holds_now].
Defined.

Lemma scalar_bytewise T : T ∈ [t_int; t_float] -> bytewise (alts := scalar_set) T.
Proof.
  intros HT. assert (cpp_ops T = scalar_ops) as Hops.
  { apply elem_of_cons in HT as [->|HT]; [reflexivity|].
    apply list_elem_of_singleton in HT as ->. reflexivity. }
  unfold bytewise. simpl. rewrite Hops. repeat split.
Qed.


Lemma fast_path_assign_holding_witness :
  assign_visit (alts := scalar_set) true (holding scalar_set t_float 3%Z)
    (holding scalar_set t_int 4%Z)
  = Returns (holding scalar_set t_float 3%Z,
             construct_trivial (holding scalar_set t_float 3%Z)
               (holding scalar_set t_int 4%Z)).
Proof.
  apply (fast_path_assign_holding (alts := scalar_set) true
           (holding scalar_set t_float 3%Z) (holding scalar_set t_int 4%Z)
           t_float 3%Z);
    [reflexivity | exact scalar_bytewise | holds_now].
Defined.

